(** * sinker: the [list] command

    A shallow embedding of [internal/commands/list.go].  The command walks a
    directory of Kubernetes manifests, extracts every container image
    reference, removes duplicates and prints the list (or writes it to a
    file).

    Go strings and byte slices are sequences of bytes; they are modelled by
    [string] (a list of 8-bit [ascii] characters).  A Go function that may
    return an error or abort with a run-time panic returns a [result]. *)

From Stdlib Require Import String Ascii List Bool Arith Lia.
Import ListNotations.

Set Warnings "-register-all".

Local Open Scope string_scope.
Local Open Scope list_scope.

(** String concatenation, Go's [+] on strings. *)
Infix "+++" := String.append (at level 60, right associativity).

(* ================================================================== *)
(** * Results: values, returned errors and panics                       *)
(* ================================================================== *)

(** A Go [error] is modelled by its message; [fmt.Errorf("p: %w", err)]
    prefixes the message of the wrapped error. *)
Definition error := string.

Definition Errorf (prefix : string) (err : error) : error :=
  prefix +++ ": " +++ err.

(** The only run-time panic list.go can raise is an index out of range. *)
Inductive panic : Type :=
| IndexOutOfRange (index len : nat).

Inductive result (A : Type) : Type :=
| Ok (a : A)
| Err (e : error)
| Panic (p : panic).

Arguments Ok {A} a.
Arguments Err {A} e.
Arguments Panic {A} p.

Definition bind {A B : Type} (r : result A) (k : A -> result B) : result B :=
  match r with
  | Ok a => k a
  | Err e => Err e
  | Panic p => Panic p
  end.

Notation "x <- r ;; k" := (bind r (fun x => k))
  (at level 61, r at next level, right associativity).

(** [if err != nil { return fmt.Errorf("prefix: %w", err) }] *)
Definition wrap {A : Type} (prefix : string) (r : result A) : result A :=
  match r with
  | Ok a => Ok a
  | Err e => Err (Errorf prefix e)
  | Panic p => Panic p
  end.

(** [for _, x := range xs { body }] over a loop state [s]; an error return or
    a panic inside the body leaves the loop at once. *)
Fixpoint for_range {A St : Type} (xs : list A) (body : St -> A -> result St)
    (s : St) : result St :=
  match xs with
  | [] => Ok s
  | x :: xs' => s' <- body s x;; for_range xs' body s'
  end.

(** The slice index expression [a[i]]. *)
Definition at_index {A : Type} (a : list A) (i : nat) : result A :=
  match nth_error a i with
  | Some x => Ok x
  | None => Panic (IndexOutOfRange i (List.length a))
  end.

(* ================================================================== *)
(** * The functions of Go's [strings] and [bytes] packages that list.go uses *)
(* ================================================================== *)

Module Strings.

(** [s[n:]] *)
Fixpoint slice_from (n : nat) (s : string) : string :=
  match n, s with
  | 0, _ => s
  | S n', String _ s' => slice_from n' s'
  | S _, EmptyString => EmptyString
  end.

(** [s[:n]] *)
Fixpoint slice_to (n : nat) (s : string) : string :=
  match n, s with
  | 0, _ => EmptyString
  | S n', String c s' => String c (slice_to n' s')
  | S _, EmptyString => EmptyString
  end.

Fixpoint HasPrefix (s prefix : string) : bool :=
  match prefix, s with
  | EmptyString, _ => true
  | String p prefix', String c s' => Ascii.eqb c p && HasPrefix s' prefix'
  | String _ _, EmptyString => false
  end.

(** [strings.Index]: the position of the first instance of [substr] in
    [s]; Go's [-1] is [None]. *)
Fixpoint Index (s substr : string) : option nat :=
  if HasPrefix s substr then Some 0
  else match s with
       | EmptyString => None
       | String _ s' => option_map S (Index s' substr)
       end.

Definition Contains (s substr : string) : bool :=
  match Index s substr with
  | Some _ => true
  | None => false
  end.

Definition TrimPrefix (s prefix : string) : string :=
  if HasPrefix s prefix then slice_from (String.length prefix) s else s.

(** [strings.Split] / [bytes.Split] for a non-empty separator (every call
    in list.go passes a non-empty literal): cut at the first instance of
    [sep], go on with what follows it.  Each cut consumes at least one
    byte, so [length s] rounds are always enough (see
    [genSplit_enough_fuel]). *)
Fixpoint genSplit (fuel : nat) (s sep : string) : list string :=
  match fuel with
  | 0 => [s]
  | S fuel' =>
      match Index s sep with
      | None => [s]
      | Some m =>
          slice_to m s :: genSplit fuel' (slice_from (m + String.length sep) s) sep
      end
  end.

Definition Split (s sep : string) : list string :=
  genSplit (String.length s) s sep.

(** [strings.Join], the inverse of [Split]; used in statements only. *)
Definition Join (elems : list string) (sep : string) : string :=
  String.concat sep elems.

End Strings.

Import Strings.

(* ================================================================== *)
(** * Data model                                                        *)
(* ================================================================== *)

Record DockerImage : Type := {
  Host : string;
  Name : string;
  Repository : string;
  Version : string
}.

(** [func (d DockerImage) String() string] *)
Definition DockerImage_String (d : DockerImage) : string :=
  let output := if negb (Host d =? "")%string then Host d +++ "/" else "" in
  output +++ Repository d +++ ":" +++ Version d.

(** The fields of [corev1.Container] that the command reads. *)
Record Container : Type := {
  Image : string;
  Args : list string
}.

(** [contents.Spec.Template.Spec] of the local [BaseType]: the two container
    lists of a [corev1.PodSpec]. *)
Record BaseType : Type := {
  InitContainers : list Container;
  Containers : list Container
}.

(** [metav1.TypeMeta] *)
Record TypeMeta : Type := {
  Kind : string
}.

(** [prometheus.Spec] and [alertmanager.Spec] of the Prometheus operator:
    the command reads the same two fields of both. *)
Module promv1.
Record Spec : Type := {
  BaseImage : string;
  Version : string
}.
End promv1.

(** [yaml.Unmarshal] (github.com/ghodss/yaml) into each of the four target
    types of [GetImagesInPath].  The decoder is an external library: the
    development is parametric in it. *)
Record Yaml : Type := {
  UnmarshalTypeMeta : string -> result TypeMeta;
  UnmarshalPrometheus : string -> result promv1.Spec;
  UnmarshalAlertmanager : string -> result promv1.Spec;
  UnmarshalBaseType : string -> result BaseType
}.

(* ================================================================== *)
(** * The file system and the process environment                       *)
(* ================================================================== *)

(** [os.FileInfo] *)
Record FileInfo : Type := {
  FileInfo_Name : string;
  IsDir : bool
}.

(** What [filepath.Walk] finds at a path.  The entries of a directory are
    listed in the order in which [Walk] visits them. *)
Inductive Tree : Type :=
| File (name : string)
| Dir (name : string) (entries : list Tree)
| UnreadableDir (name : string) (err : error)   (* listing the directory fails *)
| NoStat (name : string) (err : error).         (* [os.Lstat] fails *)

Definition Tree_name (t : Tree) : string :=
  match t with
  | File name | Dir name _ | UnreadableDir name _ | NoStat name _ => name
  end.

(** The [error] a [filepath.WalkFunc] returns. *)
Inductive walkerr : Type :=
| WalkNil
| SkipDir
| WalkErr (e : error).

(** The [info] and [err] arguments of a [filepath.WalkFunc]: [err] is nil
    and [info] describes the file, or [err] is not nil. *)
Inductive walkarg : Type :=
| WalkInfo (info : FileInfo)
| WalkFailed (info : option FileInfo) (err : error).

(** [filepath.Join] of two clean, non-empty elements (Unix separator). *)
Definition filepath_Join (dir elem : string) : string := dir +++ "/" +++ elem.

(** [filepath.Ext]: the suffix from the last dot of the last path element. *)
Fixpoint Ext (path : string) : string :=
  match path with
  | EmptyString => ""
  | String c rest =>
      if Contains rest "/" || Contains rest "." then Ext rest
      else if Ascii.eqb c "."%char then path
      else ""
  end.

Section Walk.
Context {St : Type}.
Variable walkFn : St -> string -> walkarg -> St * walkerr.

(** [filepath.walk] *)
Fixpoint walk (path : string) (t : Tree) (s : St) : St * walkerr :=
  match t with
  | File name => walkFn s path (WalkInfo {| FileInfo_Name := name; IsDir := false |})
  | NoStat _ err => walkFn s path (WalkFailed None err)
  | UnreadableDir name err =>
      walkFn s path (WalkFailed (Some {| FileInfo_Name := name; IsDir := true |}) err)
  | Dir name entries =>
      let (s1, err1) := walkFn s path (WalkInfo {| FileInfo_Name := name; IsDir := true |}) in
      match err1 with
      | WalkNil =>
          (fix loop (entries : list Tree) (s : St) : St * walkerr :=
             match entries with
             | [] => (s, WalkNil)
             | e :: entries' =>
                 let (s', err) := walk (filepath_Join path (Tree_name e)) e s in
                 match err, e with
                 | WalkNil, _ => loop entries' s'
                 | SkipDir, File _ => (s', SkipDir)
                 | SkipDir, _ => loop entries' s'
                 | WalkErr _, _ => (s', err)
                 end
             end) entries s1
      | _ => (s1, err1)
      end
  end.

(** [filepath.Walk] *)
Definition Walk (root : string) (t : Tree) (s : St) : St * walkerr :=
  let (s', err) := walk root t s in
  match err with
  | SkipDir => (s', WalkNil)
  | _ => (s', err)
  end.
End Walk.

(** The world the process runs in. *)
Record World : Type := {
  GOOS : string;                       (* [runtime.GOOS] *)
  Getwd : result string;               (* [os.Getwd] *)
  Lstat : string -> Tree;              (* the file tree found at a path *)
  ReadFile : string -> result string;  (* [ioutil.ReadFile] *)
  Create : string -> option error;     (* [os.Create]: [None] when the file is created *)
  flag_output : string                 (* [viper.GetString("output")] *)
}.

(** What a run leaves behind: the operands printed on standard output, one
    for each [fmt.Println] call, and the files written, each with the
    operands of its [fmt.Fprintln] calls. *)
Record Effects : Type := {
  stdout : list string;
  files_written : list (string * list string)
}.

Definition no_effects : Effects := {| stdout := []; files_written := [] |}.

(* ================================================================== *)
(** * list.go                                                           *)
(* ================================================================== *)

(** The Go string literals ["\n"] and ["\r\n"]. *)
Definition LF : string := String "010" "".
Definition CRLF : string := String "013" (String "010" "").

(** [doSplit] *)
Definition doSplit (goos : string) (data : string) : list string :=
  let windowsLineEnding := Contains data CRLF in
  let linebreak :=
    if windowsLineEnding && (goos =? "windows")%string then CRLF else LF in
  Split data (linebreak +++ "---" +++ linebreak).

Section Dedupe.
(** [strings.EqualFold]: equality under Unicode case folding. *)
Variable EqualFold : string -> string -> bool.

(** [contains] *)
Fixpoint contains (images : list string) (image : string) : bool :=
  match images with
  | [] => false
  | currentImage :: images' =>
      if EqualFold currentImage image then true else contains images' image
  end.

(** [dedupeImages] *)
Definition dedupeImages (images : list string) : list string :=
  fold_left
    (fun dedupedImageList image =>
       if negb (contains dedupedImageList image)
       then dedupedImageList ++ [image]
       else dedupedImageList)
    images [].
End Dedupe.

(** [getImagesFromContainerArgs] *)
Definition getImagesFromContainerArgs (args : list string) : result (list string) :=
  for_range args
    (fun images arg =>
       if negb (Contains arg ":") || Contains arg "=:" then Ok images
       else
         let argTokens := Split arg "=" in
         image <- at_index argTokens 1;;
         Ok (images ++ [image]))
    [].

(** [getImagesFromContainers] *)
Definition getImagesFromContainers (containers : list Container) : result (list string) :=
  for_range containers
    (fun images container =>
       let images := images ++ [Image container] in
       argImages <- getImagesFromContainerArgs (Args container);;
       Ok (images ++ argImages))
    [].

(** The body of the loop of [marshalImages]: one image string. *)
Definition marshalImage (image : string) : result DockerImage :=
  let imageTokens := Split image ":" in
  imageTokens0 <- at_index imageTokens 0;;
  let imagePaths := Split imageTokens0 "/" in
  imageName <- at_index imagePaths (List.length imagePaths - 1);;
  imagePaths0 <- at_index imagePaths 0;;
  let imageHost := if Contains imagePaths0 ".io" then imagePaths0 else "" in
  let imageRepository :=
    if negb (imageHost =? "")%string
    then TrimPrefix imageTokens0 (imageHost +++ "/")
    else imageTokens0 in
  imageTokens1 <- at_index imageTokens 1;;
  Ok {| Host := imageHost;
        Repository := imageRepository;
        Name := imageName;
        Version := imageTokens1 |}.

(** [marshalImages] *)
Definition marshalImages (images : list string) : result (list DockerImage) :=
  for_range images
    (fun marshaledImages image =>
       dockerImage <- marshalImage image;;
       Ok (marshaledImages ++ [dockerImage]))
    [].

(** The callback [getYamlFiles] hands to [filepath.Walk]; the loop state is
    the captured slice [files]. *)
Definition getYamlFiles_walkFn (files : list string) (currentFilePath : string)
    (a : walkarg) : list string * walkerr :=
  match a with
  | WalkFailed _ err => (files, WalkErr (Errorf "walk path" err))
  | WalkInfo fileInfo =>
      if IsDir fileInfo && (FileInfo_Name fileInfo =? ".git")%string then (files, SkipDir)
      else if IsDir fileInfo then (files, WalkNil)
      else if negb (Ext currentFilePath =? ".yaml")%string
              && negb (Ext currentFilePath =? ".yml")%string then (files, WalkNil)
      else (files ++ [currentFilePath], WalkNil)
  end.

(** [getYamlFiles] *)
Definition getYamlFiles (w : World) (path : string) : result (list string) :=
  match Walk getYamlFiles_walkFn path (Lstat w path) [] with
  | (files, WalkNil) => Ok files
  | (_, SkipDir) => Err "skip this directory"
  | (_, WalkErr err) => Err err
  end.

(** [splitYamlFiles] *)
Definition splitYamlFiles (w : World) (files : list string) : result (list string) :=
  for_range files
    (fun yamlFiles file =>
       fileContent <- wrap "open file" (ReadFile w file);;
       let individualYamlFiles := doSplit (GOOS w) fileContent in
       Ok (fold_left (fun yamlFiles yamlFile => yamlFiles ++ [yamlFile])
             individualYamlFiles yamlFiles))
    [].

(** [writeListToFile]: the returned error ([None] is nil) and the effect. *)
Definition writeListToFile (w : World) (images : list DockerImage) (outputFile : string)
    : option error * Effects :=
  match Create w outputFile with
  | Some err => (Some (Errorf "creating file" err), no_effects)
  | None =>
      (None, {| stdout := [];
                files_written := [(outputFile, map DockerImage_String images)] |})
  end.

Section Extraction.
Variable EqualFold : string -> string -> bool.
Variable yaml : Yaml.

(** The body of the loop of [GetImagesInPath]: one YAML document.  Every
    [continue] leaves with the image list as it stands. *)
Definition GetImagesInPath_document (imageList : list string) (yamlFile : string)
    : result (list string) :=
  match UnmarshalTypeMeta yaml yamlFile with
  | Panic p => Panic p
  | Err _ => Ok imageList
  | Ok typeMeta =>
      if (Kind typeMeta =? "Prometheus")%string then
        prometheus <- wrap "unmarshal prometheus" (UnmarshalPrometheus yaml yamlFile);;
        let prometheusImage :=
          promv1.BaseImage prometheus +++ ":" +++ promv1.Version prometheus in
        Ok (imageList ++ [prometheusImage])
      else if (Kind typeMeta =? "Alertmanager")%string then
        alertmanager <- wrap "unmarshal alertmanager" (UnmarshalAlertmanager yaml yamlFile);;
        let alertmanagerImage :=
          promv1.BaseImage alertmanager +++ ":" +++ promv1.Version alertmanager in
        Ok (imageList ++ [alertmanagerImage])
      else
        match UnmarshalBaseType yaml yamlFile with
        | Panic p => Panic p
        | Err _ => Ok imageList
        | Ok contents =>
            imageList <-
              (if (0 <? List.length (InitContainers contents))%nat
               then images <- getImagesFromContainers (InitContainers contents);;
                    Ok (imageList ++ images)
               else Ok imageList);;
            if (0 <? List.length (Containers contents))%nat
            then images <- getImagesFromContainers (Containers contents);;
                 Ok (imageList ++ images)
            else Ok imageList
        end
  end.

(** The loop of [GetImagesInPath] over all documents. *)
Definition GetImagesInPath_loop (yamlFiles : list string) (imageList : list string)
    : result (list string) :=
  for_range yamlFiles GetImagesInPath_document imageList.

(** [GetImagesInPath] *)
Definition GetImagesInPath (w : World) (path : string) : result (list DockerImage) :=
  files <- wrap "get yaml files" (getYamlFiles w path);;
  yamlFiles <- wrap "split yaml files" (splitYamlFiles w files);;
  imageList <- GetImagesInPath_loop yamlFiles [];;
  let dedupedImageList := dedupeImages EqualFold imageList in
  marshalImages dedupedImageList.

(** [runListCommand]: [Ok fx] is a nil return after the effects [fx]. *)
Definition runListCommand (w : World) (args : list string) : result Effects :=
  workingDir <- wrap "get working dir" (Getwd w);;
  args0 <- at_index args 0;;
  let listPath := filepath_Join workingDir args0 in
  images <- wrap "get images from path" (GetImagesInPath w listPath);;
  if negb (flag_output w =? "")%string then
    let outputFile := filepath_Join workingDir (flag_output w) in
    let (_, fx) := writeListToFile w images outputFile in
    Ok fx
  else
    Ok {| stdout := map DockerImage_String images; files_written := [] |}.

(** The [RunE] of [NewListCommand] (binding the declared [output] flag
    does not fail). *)
Definition NewListCommand_RunE (w : World) (args : list string) : result Effects :=
  wrap "list" (runListCommand w args).

End Extraction.

(** Modelled from the spec: the [main] package is not part of the listed
    sources.  The process exits with zero when the command returns no error
    and with a non-zero code otherwise (Go exits with 2 on a panic). *)
Definition exitCode (r : result Effects) : nat :=
  match r with
  | Ok _ => 0
  | Err _ => 1
  | Panic _ => 2
  end.

(* ================================================================== *)
(** * Vocabulary of the specification                                   *)
(* ================================================================== *)

(** The text before and the text after the first occurrence of the
    character [c] in [s]; [None] when [c] does not occur. *)
Fixpoint cut_first (c : ascii) (s : string) : option (string * string) :=
  match s with
  | EmptyString => None
  | String x s' =>
      if Ascii.eqb x c then Some (EmptyString, s')
      else match cut_first c s' with
           | Some (a, b) => Some (String x a, b)
           | None => None
           end
  end.

(** The text before and the text after the last occurrence of [c] in [s]. *)
Fixpoint cut_last (c : ascii) (s : string) : option (string * string) :=
  match s with
  | EmptyString => None
  | String x s' =>
      match cut_last c s' with
      | Some (a, b) => Some (String x a, b)
      | None => if Ascii.eqb x c then Some (EmptyString, s') else None
      end
  end.

(** The text up to the first [c], the whole string when there is none. *)
Definition before_first (c : ascii) (s : string) : string :=
  match cut_first c s with
  | Some (a, _) => a
  | None => s
  end.

(** The text after the last [c], the whole string when there is none. *)
Definition after_last (c : ascii) (s : string) : string :=
  match cut_last c s with
  | Some (_, b) => b
  | None => s
  end.

(** The text up to the last [c], the whole string when there is none. *)
Definition before_last (c : ascii) (s : string) : string :=
  match cut_last c s with
  | Some (a, _) => a
  | None => s
  end.

(** The number of occurrences of [c] in [s]. *)
Fixpoint count_char (c : ascii) (s : string) : nat :=
  match s with
  | EmptyString => 0
  | String x s' => (if Ascii.eqb x c then 1 else 0) + count_char c s'
  end.

(** The host heuristic of the parser on a path: the first [/]-segment when
    it contains [.io], empty otherwise. *)
Definition path_host (path : string) : string :=
  let first := before_first "/" path in
  if Contains first ".io" then first else "".

(** The image the parser builds from a path and a version. *)
Definition image_of (path version : string) : DockerImage :=
  {| Host := path_host path;
     Repository :=
       if negb (path_host path =? "")%string
       then TrimPrefix path (path_host path +++ "/")
       else path;
     Name := after_last "/" path;
     Version := version |}.

(** The parser of the data model as the specification words it: the tag is
    the text after the last [:], the path the text before it. *)
Definition splits_on_last_colon (image : string) (d : DockerImage) : Prop :=
  Version d = after_last ":" image /\
  d = image_of (before_last ":" image) (Version d).

(** A path without the host that the heuristic detects in it. *)
Definition strip_host (path : string) : string :=
  Repository (image_of path "").

(** Two image strings are equivalent under the host heuristic when they have
    the same tag and the same repository: they differ at most in a leading
    host segment. *)
Definition equivalent_up_to_host (s t : string) : Prop :=
  after_last ":" s = after_last ":" t /\
  strip_host (before_last ":" s) = strip_host (before_last ":" t).

(** The subsequence of first occurrences of a sequence under a comparison
    [same]: an element stays when no earlier element of the sequence
    ([seen], kept or not) is the [same]. *)
Fixpoint first_occurrences_from (same : string -> string -> bool)
    (seen images : list string) : list string :=
  match images with
  | [] => []
  | image :: images' =>
      if existsb (fun earlier => same earlier image) seen
      then first_occurrences_from same (seen ++ [image]) images'
      else image :: first_occurrences_from same (seen ++ [image]) images'
  end.

Definition first_occurrences (same : string -> string -> bool)
    (images : list string) : list string :=
  first_occurrences_from same [] images.

(** The images of a sequence of items, each item emitting its own images in
    turn; a panic at one item is the panic of the whole. *)
Fixpoint emit_all {A B : Type} (emit : A -> result (list B)) (items : list A)
    : result (list B) :=
  match items with
  | [] => Ok []
  | item :: items' =>
      first <- emit item;;
      rest <- emit_all emit items';;
      Ok (first ++ rest)
  end.

(** The images one argument emits: none when the filter rejects it, else
    element 1 of its split on [=]. *)
Definition arg_images (arg : string) : result (list string) :=
  if negb (Contains arg ":") || Contains arg "=:" then Ok []
  else image <- at_index (Split arg "=") 1;; Ok [image].

(** The images one container emits: its image field, then the images found
    in its arguments. *)
Definition container_images (container : Container) : result (list string) :=
  argImages <- getImagesFromContainerArgs (Args container);;
  Ok (Image container :: argImages).

(** A document the specification calls silently skipped: its [kind] cannot
    be parsed, or it is of a non-special kind and does not parse as a
    pod-template-shaped resource. *)
Definition skipped_document (yaml : Yaml) (doc : string) : Prop :=
  (exists e, UnmarshalTypeMeta yaml doc = Err e) \/
  (exists typeMeta e,
      UnmarshalTypeMeta yaml doc = Ok typeMeta /\
      Kind typeMeta <> "Prometheus" /\ Kind typeMeta <> "Alertmanager" /\
      UnmarshalBaseType yaml doc = Err e).

(** A document the specification calls fatal: its kind is [Prometheus] or
    [Alertmanager] and the full structural parse fails. *)
Definition fatal_document (yaml : Yaml) (doc : string) : Prop :=
  exists typeMeta e,
    UnmarshalTypeMeta yaml doc = Ok typeMeta /\
    ((Kind typeMeta = "Prometheus" /\ UnmarshalPrometheus yaml doc = Err e) \/
     (Kind typeMeta = "Alertmanager" /\ UnmarshalAlertmanager yaml doc = Err e)).

(** A pod-template-shaped document: a non-special kind that parses. *)
Definition pod_template_document (yaml : Yaml) (doc : string) (contents : BaseType) : Prop :=
  exists typeMeta,
    UnmarshalTypeMeta yaml doc = Ok typeMeta /\
    Kind typeMeta <> "Prometheus" /\ Kind typeMeta <> "Alertmanager" /\
    UnmarshalBaseType yaml doc = Ok contents.

(* ================================================================== *)
(** * Vocabulary for the file collector and for whole runs              *)
(* ================================================================== *)

(** The loop of [filepath.walk] over the entries of a directory. *)
Definition walk_entries {St : Type} (walkFn : St -> string -> walkarg -> St * walkerr)
    (path : string) : list Tree -> St -> St * walkerr :=
  fix loop (entries : list Tree) (s : St) : St * walkerr :=
    match entries with
    | [] => (s, WalkNil)
    | e :: entries' =>
        let (s', err) := walk walkFn (filepath_Join path (Tree_name e)) e s in
        match err, e with
        | WalkNil, _ => loop entries' s'
        | SkipDir, File _ => (s', SkipDir)
        | SkipDir, _ => loop entries' s'
        | WalkErr _, _ => (s', err)
        end
    end.

(** A path the collector keeps: its extension is [.yaml] or [.yml]. *)
Definition is_yaml (path : string) : bool :=
  (Ext path =? ".yaml")%string || (Ext path =? ".yml")%string.

(** The YAML files of a tree found at [path], in the order of the walk:
    regular files with a YAML extension, outside every directory named
    [.git]. *)
Fixpoint yaml_files (path : string) (t : Tree) : list string :=
  match t with
  | File _ => if is_yaml path then [path] else []
  | Dir name entries =>
      if (name =? ".git")%string then []
      else flat_map (fun e => yaml_files (filepath_Join path (Tree_name e)) e) entries
  | UnreadableDir _ _ | NoStat _ _ => []
  end.

(** A tree the walk reads without an error: outside the directories named
    [.git], every entry can be examined and every directory listed. *)
Fixpoint readable (t : Tree) : bool :=
  match t with
  | File _ => true
  | Dir name entries => (name =? ".git")%string || forallb readable entries
  | UnreadableDir _ _ | NoStat _ _ => false
  end.

(** A directory named [.git] that can be listed. *)
Definition is_git_dir (t : Tree) : bool :=
  match t with
  | Dir name _ => (name =? ".git")%string
  | _ => false
  end.

(** The tree without the listable directories named [.git] that it holds
    as entries, at every depth. *)
Fixpoint without_git (t : Tree) : Tree :=
  match t with
  | Dir name entries =>
      Dir name
        ((fix prune (entries : list Tree) : list Tree :=
            match entries with
            | [] => []
            | e :: entries' =>
                if is_git_dir e then prune entries'
                else without_git e :: prune entries'
            end) entries)
  | _ => t
  end.

Definition without_git_entries : list Tree -> list Tree :=
  fix prune (entries : list Tree) : list Tree :=
    match entries with
    | [] => []
    | e :: entries' =>
        if is_git_dir e then prune entries'
        else without_git e :: prune entries'
    end.


(** The world [w] run with [--output output]. *)
Definition with_output (w : World) (output : string) : World :=
  {| GOOS := GOOS w;
     Getwd := Getwd w;
     Lstat := Lstat w;
     ReadFile := ReadFile w;
     Create := Create w;
     flag_output := output |}.

(* ================================================================== *)
(** * Test fixtures                                                     *)
(* ================================================================== *)

Module Fixture.

(** [strings.EqualFold] on ASCII text, after the byte loop of the Go
    library: equal bytes, or an upper-case letter and its lower-case
    form. *)
Definition equal_fold_byte (sr tr : ascii) : bool :=
  let x := nat_of_ascii sr in
  let y := nat_of_ascii tr in
  let lo := if (y <? x)%nat then y else x in
  let hi := if (y <? x)%nat then x else y in
  (lo =? hi)%nat || ((65 <=? lo)%nat && (lo <=? 90)%nat && (hi =? lo + 32)%nat).

Fixpoint EqualFold (s t : string) : bool :=
  match s, t with
  | EmptyString, EmptyString => true
  | String sr s', String tr t' => equal_fold_byte sr tr && EqualFold s' t'
  | _, _ => false
  end.

Definition lines (ls : list string) : string :=
  String.concat (String "010" "") ls.

Definition deployment : string :=
  lines [
        "apiVersion: apps/v1";
        "kind: Deployment";
        "spec:";
        "  template:";
        "    spec:";
        "      containers:";
        "      - image: nginx:1.0";
        "      - image: busybox:1.2";
        "        args: [--proxy-image=gcr.io/proj/proxy:1.0]" ].

Definition untagged : string :=
  lines [
        "apiVersion: apps/v1";
        "kind: Deployment";
        "spec:";
        "  template:";
        "    spec:";
        "      containers:";
        "      - image: nginx" ].

Definition prometheus : string :=
  lines [
        "kind: Prometheus";
        "spec:";
        "  baseImage: quay.io/prometheus/prometheus";
        "  version: v2.0.0" ].

Definition broken_prometheus : string :=
  lines [
        "kind: Prometheus";
        "spec:";
        "  replicas: many" ].

Definition broken_alertmanager : string :=
  lines [
        "kind: Alertmanager";
        "spec:";
        "  replicas: many" ].

Definition no_kind : string := "kind: [".

Definition odd_service : string :=
  lines [
        "kind: Service";
        "spec: 7" ].

Definition nginx : Container := {| Image := "nginx:1.0"; Args := [] |}.
Definition busybox : Container :=
  {| Image := "busybox:1.2"; Args := ["--proxy-image=gcr.io/proj/proxy:1.0"] |}.

(** A decoder that knows the documents above and reads every other
    document as an empty object. *)
Definition yaml : Yaml :=
  {| UnmarshalTypeMeta doc :=
       if (doc =? no_kind)%string then Err "yaml: did not find expected node content"
       else if (doc =? deployment)%string || (doc =? untagged)%string
            then Ok {| Kind := "Deployment" |}
       else if (doc =? prometheus)%string || (doc =? broken_prometheus)%string
            then Ok {| Kind := "Prometheus" |}
       else if (doc =? broken_alertmanager)%string then Ok {| Kind := "Alertmanager" |}
       else if (doc =? odd_service)%string then Ok {| Kind := "Service" |}
       else Ok {| Kind := "" |};
     UnmarshalPrometheus doc :=
       if (doc =? prometheus)%string
       then Ok {| promv1.BaseImage := "quay.io/prometheus/prometheus";
                  promv1.Version := "v2.0.0" |}
       else Err "json: cannot unmarshal string into Go struct field of type int32";
     UnmarshalAlertmanager doc :=
       Err "json: cannot unmarshal string into Go struct field of type int32";
     UnmarshalBaseType doc :=
       if (doc =? deployment)%string
       then Ok {| InitContainers := []; Containers := [nginx; busybox] |}
       else if (doc =? untagged)%string
       then Ok {| InitContainers := [];
                  Containers := [{| Image := "nginx"; Args := [] |}] |}
       else if (doc =? odd_service)%string
       then Err "json: cannot unmarshal number into Go value of type commands.BaseSpec"
       else Ok {| InitContainers := []; Containers := [] |} |}.

(** A working directory [/work] holding [manifests/] with one manifest of
    two documents, a [.git] directory and a file that is not YAML.  No
    file can be created. *)
Definition manifests : Tree :=
  Dir "manifests"
    [ Dir ".git" [File "hook.yaml"];
      File "README.md";
      File "app.yaml" ].

Definition world (app_yaml : string) (output : string) : World :=
  {| GOOS := "linux";
     Getwd := Ok "/work";
     Lstat path :=
       if (path =? "/work/manifests")%string then manifests
       else NoStat path "no such file or directory";
     ReadFile path :=
       if (path =? "/work/manifests/app.yaml")%string then Ok app_yaml
       else Err "no such file or directory";
     Create path := Some "permission denied";
     flag_output := output |}.

End Fixture.

(* ================================================================== *)
(** * Results and loops                                                 *)
(* ================================================================== *)

Lemma at_index_cons {A : Type} (a : A) (l : list A) (i : nat) (x : A) :
  at_index l i = Ok x -> at_index (a :: l) (S i) = Ok x.
Proof.
  unfold at_index; simpl.
  destruct (nth_error l i); [auto|discriminate].
Qed.

Lemma for_range_app {A St : Type} (body : St -> A -> result St) (xs ys : list A) (s : St) :
  for_range (xs ++ ys) body s = (s' <- for_range xs body s;; for_range ys body s').
Proof.
  revert s; induction xs as [|x xs IH]; intros s; simpl; [reflexivity|].
  destruct (body s x); simpl; auto.
Qed.

Lemma for_range_ext {A St : Type} (body body' : St -> A -> result St) (xs : list A) (s : St) :
  (forall s x, body s x = body' s x) ->
  for_range xs body s = for_range xs body' s.
Proof.
  intros H; revert s; induction xs as [|x xs IH]; intros s; simpl; [reflexivity|].
  rewrite H. destruct (body' s x); simpl; auto.
Qed.

(** A loop that appends what each item emits computes [emit_all]. *)
Lemma for_range_emit {A B : Type} (emit : A -> result (list B)) (xs : list A) (acc : list B) :
  for_range xs (fun acc x => ys <- emit x;; Ok (acc ++ ys)) acc =
    (r <- emit_all emit xs;; Ok (acc ++ r)).
Proof.
  revert acc; induction xs as [|x xs IH]; intros acc; simpl.
  - now rewrite app_nil_r.
  - destruct (emit x) as [ys| |]; simpl; auto.
    rewrite IH. destruct (emit_all emit xs); simpl; auto.
    now rewrite app_assoc.
Qed.

Lemma emit_all_app {A B : Type} (emit : A -> result (list B)) (xs ys : list A) :
  emit_all emit (xs ++ ys) =
    (a <- emit_all emit xs;; b <- emit_all emit ys;; Ok (a ++ b)).
Proof.
  induction xs as [|x xs IH]; simpl.
  - destruct (emit_all emit ys); reflexivity.
  - destruct (emit x) as [fx| |]; simpl; auto.
    rewrite IH. destruct (emit_all emit xs); simpl; auto.
    destruct (emit_all emit ys); simpl; auto.
    now rewrite app_assoc.
Qed.

(* ================================================================== *)
(** * Strings: slices, prefixes, [Index] and [Split]                     *)
(* ================================================================== *)

Section StringFacts.

Lemma append_empty_r (s : string) : s +++ "" = s.
Proof. induction s; simpl; congruence. Qed.

Lemma append_assoc (s t u : string) : (s +++ t) +++ u = s +++ t +++ u.
Proof. induction s; simpl; congruence. Qed.

Lemma length_append (s t : string) :
  String.length (s +++ t) = String.length s + String.length t.
Proof. induction s; simpl; auto. Qed.

Lemma slice_to_append (p s : string) : slice_to (String.length p) (p +++ s) = p.
Proof. induction p; simpl; [destruct s|]; congruence. Qed.

Lemma slice_from_append (p s : string) : slice_from (String.length p) (p +++ s) = s.
Proof. induction p; simpl; auto. Qed.

Lemma slice_to_from (n : nat) (s : string) : slice_to n s +++ slice_from n s = s.
Proof.
  revert s; induction n as [|n IH]; intros [|c s]; simpl; auto.
  now rewrite IH.
Qed.

Lemma length_slice_from (n : nat) (s : string) :
  String.length (slice_from n s) = String.length s - n.
Proof. revert s; induction n as [|n IH]; intros [|c s]; simpl; auto. Qed.

Lemma HasPrefix_append (p s : string) : HasPrefix (p +++ s) p = true.
Proof.
  induction p as [|c p IH]; simpl; [now destruct s|].
  now rewrite Ascii.eqb_refl, IH.
Qed.

Lemma HasPrefix_true (s p : string) :
  HasPrefix s p = true -> s = p +++ slice_from (String.length p) s.
Proof.
  revert s; induction p as [|c p IH]; intros s H.
  - now destruct s.
  - destruct s as [|x s]; simpl in H; [discriminate|].
    apply andb_prop in H as [Hc Hp].
    apply Ascii.eqb_eq in Hc; subst x.
    simpl; f_equal; auto.
Qed.

Lemma HasPrefix_length (s p : string) :
  HasPrefix s p = true -> String.length p <= String.length s.
Proof.
  intros H; apply HasPrefix_true in H.
  rewrite H, length_append; lia.
Qed.

Lemma TrimPrefix_append (p s : string) : TrimPrefix (p +++ s) p = s.
Proof. unfold TrimPrefix; now rewrite HasPrefix_append, slice_from_append. Qed.

Lemma Index_eq (s sep : string) :
  Index s sep =
    if HasPrefix s sep then Some 0
    else match s with
         | EmptyString => None
         | String _ s' => option_map S (Index s' sep)
         end.
Proof. now destruct s. Qed.

(** [Index] finds an instance of the separator: the string is the text
    before it, the separator, and the text after it. *)
Lemma Index_Some (s sep : string) (m : nat) :
  Index s sep = Some m ->
  s = slice_to m s +++ sep +++ slice_from (m + String.length sep) s.
Proof.
  revert m; induction s as [|c s IH]; intros m; rewrite Index_eq.
  - destruct (HasPrefix "" sep) eqn:E; [|discriminate].
    intros [= <-]; now apply HasPrefix_true in E.
  - destruct (HasPrefix (String c s) sep) eqn:E.
    + intros [= <-]; now apply HasPrefix_true in E.
    + destruct (Index s sep) as [k|] eqn:Ek; [|discriminate].
      intros [= <-]; simpl; f_equal; auto.
Qed.

Lemma Index_Some_length (s sep : string) (m : nat) :
  Index s sep = Some m -> m + String.length sep <= String.length s.
Proof.
  revert m; induction s as [|c s IH]; intros m; rewrite Index_eq.
  - destruct (HasPrefix "" sep) eqn:E; [|discriminate].
    intros [= <-]; now apply HasPrefix_length in E.
  - destruct (HasPrefix (String c s) sep) eqn:E.
    + intros [= <-]; now apply HasPrefix_length in E.
    + destruct (Index s sep) as [k|] eqn:Ek; [|discriminate].
      intros [= <-]; specialize (IH k eq_refl); simpl; lia.
Qed.

(** [length s] rounds are enough for [genSplit]: more fuel changes
    nothing. *)
Lemma genSplit_enough_fuel (sep : string) :
  sep <> "" ->
  forall fuel fuel' s,
    String.length s <= fuel -> String.length s <= fuel' ->
    genSplit fuel s sep = genSplit fuel' s sep.
Proof.
  intros Hsep.
  assert (Hempty : forall s, String.length s = 0 -> Index s sep = None).
  { intros [|c s]; [|discriminate]; intros _.
    destruct sep; [congruence|reflexivity]. }
  induction fuel as [|fuel IH]; intros fuel' s H H'.
  - assert (E : Index s sep = None) by (apply Hempty; lia).
    destruct fuel'; simpl; now rewrite ?E.
  - destruct fuel' as [|fuel'].
    + assert (E : Index s sep = None) by (apply Hempty; lia).
      simpl; now rewrite E.
    + simpl. destruct (Index s sep) as [m|] eqn:E; [|reflexivity].
      f_equal. pose proof (Index_Some_length _ _ _ E) as Hm.
      assert (0 < String.length sep) by (destruct sep; [congruence|simpl; lia]).
      apply IH; rewrite length_slice_from; lia.
Qed.

(** The loop of [Split], one round. *)
Lemma Split_step (s sep : string) :
  sep <> "" ->
  Split s sep =
    match Index s sep with
    | None => [s]
    | Some m => slice_to m s :: Split (slice_from (m + String.length sep) s) sep
    end.
Proof.
  intros Hsep; unfold Split.
  destruct (String.length s) as [|n] eqn:En.
  - destruct s; [|discriminate]. simpl.
    destruct sep; [congruence|reflexivity].
  - simpl. destruct (Index s sep) as [m|] eqn:E; [|reflexivity].
    f_equal. pose proof (Index_Some_length _ _ _ E) as Hm.
    assert (0 < String.length sep) by (destruct sep; [congruence|simpl; lia]).
    apply genSplit_enough_fuel; auto; rewrite ?length_slice_from; lia.
Qed.

(** [Split] and [Join] are inverse: splitting loses the separators only. *)
Lemma Join_Split (s sep : string) : sep <> "" -> Join (Split s sep) sep = s.
Proof.
  intros Hsep.
  remember (String.length s) as n eqn:En.
  revert s En; induction n as [n IH] using lt_wf_ind; intros s ->.
  rewrite Split_step by assumption.
  destruct (Index s sep) as [m|] eqn:E; [|reflexivity].
  pose proof (Index_Some _ _ _ E) as Hs.
  pose proof (Index_Some_length _ _ _ E) as Hm.
  assert (0 < String.length sep) by (destruct sep; [congruence|simpl; lia]).
  specialize (IH (String.length (slice_from (m + String.length sep) s))).
  rewrite length_slice_from in IH.
  specialize (IH ltac:(lia) _ (eq_sym (length_slice_from _ _))).
  unfold Join in *. simpl.
  destruct (Split (slice_from (m + String.length sep) s) sep) as [|x xs] eqn:Ex.
  - rewrite Split_step in Ex by assumption.
    destruct (Index _ sep); discriminate.
  - rewrite IH. symmetry; exact Hs.
Qed.

End StringFacts.

(* ================================================================== *)
(** * Splitting on a single character                                   *)
(* ================================================================== *)

Section SplitOnChar.
Variable c : ascii.

Let sep : string := String c "".

Lemma sep_nonempty : sep <> "".
Proof. discriminate. Qed.

Lemma HasPrefix_char (s : string) :
  HasPrefix s sep = match s with String x _ => Ascii.eqb x c | EmptyString => false end.
Proof. destruct s as [|x s]; simpl; [reflexivity|]. destruct s; apply andb_true_r. Qed.

Lemma cut_first_Some (s a b : string) :
  cut_first c s = Some (a, b) -> s = a +++ String c b /\ cut_first c a = None.
Proof.
  revert a; induction s as [|x s IH]; intros a; simpl; [discriminate|].
  destruct (Ascii.eqb x c) eqn:E.
  - apply Ascii.eqb_eq in E; subst x. intros [= <- <-]; auto.
  - destruct (cut_first c s) as [[a' b']|]; [|discriminate].
    intros [= <- <-]. destruct (IH a' eq_refl) as [-> Ha].
    simpl; rewrite E, Ha; auto.
Qed.

Lemma cut_first_append (a b : string) :
  cut_first c a = None -> cut_first c (a +++ String c b) = Some (a, b).
Proof.
  induction a as [|x a IH]; simpl.
  - now rewrite Ascii.eqb_refl.
  - destruct (Ascii.eqb x c); [discriminate|].
    destruct (cut_first c a) as [[? ?]|]; [discriminate|].
    intros _; now rewrite IH.
Qed.

Lemma cut_first_length (s a b : string) :
  cut_first c s = Some (a, b) -> String.length b < String.length s.
Proof.
  intros H; apply cut_first_Some in H as [-> _].
  rewrite length_append; simpl; lia.
Qed.

Lemma Index_char (s : string) :
  Index s sep =
    match cut_first c s with
    | Some (a, _) => Some (String.length a)
    | None => None
    end.
Proof.
  induction s as [|x s IH]; [reflexivity|].
  rewrite Index_eq, HasPrefix_char; simpl.
  destruct (Ascii.eqb x c); [reflexivity|].
  rewrite IH; now destruct (cut_first c s) as [[? ?]|].
Qed.

Lemma Contains_char (s : string) :
  Contains s sep = match cut_first c s with Some _ => true | None => false end.
Proof. unfold Contains; rewrite Index_char; now destruct (cut_first c s) as [[? ?]|]. Qed.

Lemma Contains_char_count (s : string) :
  Contains s sep = (0 <? count_char c s)%nat.
Proof.
  rewrite Contains_char.
  induction s as [|x s IH]; simpl; [reflexivity|].
  destruct (Ascii.eqb x c); [reflexivity|].
  simpl; rewrite <- IH; now destruct (cut_first c s) as [[? ?]|].
Qed.

(** [Split] on a character: the text before the first occurrence, then
    the split of the text after it. *)
Lemma Split_char (s : string) :
  Split s sep =
    match cut_first c s with
    | None => [s]
    | Some (a, b) => a :: Split b sep
    end.
Proof.
  rewrite Split_step by apply sep_nonempty.
  rewrite Index_char.
  destruct (cut_first c s) as [[a b]|] eqn:E; [|reflexivity].
  apply cut_first_Some in E as [-> _].
  rewrite slice_to_append. f_equal. f_equal.
  change (a +++ String c b) with (a +++ sep +++ b).
  rewrite <- append_assoc, <- length_append.
  apply slice_from_append.
Qed.

Lemma Split_char_index0 (s : string) :
  at_index (Split s sep) 0 = Ok (before_first c s).
Proof.
  rewrite Split_char; unfold before_first.
  now destruct (cut_first c s) as [[a b]|].
Qed.

(** Element 1 of the split: a panic when the character does not occur,
    else the text between its first two occurrences. *)
Lemma Split_char_index1 (s : string) :
  at_index (Split s sep) 1 =
    match cut_first c s with
    | None => Panic (IndexOutOfRange 1 1)
    | Some (_, b) => Ok (before_first c b)
    end.
Proof.
  rewrite Split_char.
  destruct (cut_first c s) as [[a b]|]; [|reflexivity].
  apply at_index_cons, Split_char_index0.
Qed.

Lemma cut_last_None (s : string) : cut_last c s = None <-> cut_first c s = None.
Proof.
  induction s as [|x s IH]; simpl; [tauto|].
  destruct (Ascii.eqb x c).
  - destruct (cut_last c s) as [[? ?]|]; split; discriminate.
  - destruct (cut_last c s) as [[? ?]|], (cut_first c s) as [[? ?]|];
      split; intros H; try discriminate; try reflexivity.
    + destruct IH as [_ IH]; now specialize (IH eq_refl).
    + destruct IH as [IH _]; now specialize (IH eq_refl).
Qed.

Lemma after_last_cut_first (s : string) :
  after_last c s =
    match cut_first c s with
    | None => s
    | Some (_, b) => after_last c b
    end.
Proof.
  unfold after_last.
  induction s as [|x s IH]; simpl; [reflexivity|].
  destruct (Ascii.eqb x c) eqn:E.
  - now destruct (cut_last c s) as [[? ?]|].
  - pose proof (cut_last_None s) as Hn.
    destruct (cut_first c s) as [[a b]|], (cut_last c s) as [[a' b']|];
      simpl in *; try congruence.
    + destruct Hn as [Hn _]; now specialize (Hn eq_refl).
    + destruct Hn as [_ Hn]; now specialize (Hn eq_refl).
Qed.

Lemma Split_char_last (s : string) :
  at_index (Split s sep) (List.length (Split s sep) - 1) = Ok (after_last c s).
Proof.
  remember (String.length s) as n eqn:En.
  revert s En; induction n as [n IH] using lt_wf_ind; intros s ->.
  rewrite Split_char, after_last_cut_first.
  destruct (cut_first c s) as [[a b]|] eqn:E; [|reflexivity].
  specialize (IH _ (cut_first_length _ _ _ E) b eq_refl).
  destruct (Split b sep) as [|y ys] eqn:Ey.
  - rewrite Split_char in Ey. destruct (cut_first c b) as [[? ?]|]; discriminate.
  - replace (List.length (a :: y :: ys) - 1) with (S (List.length (y :: ys) - 1))
      by (simpl; lia).
    now apply at_index_cons.
Qed.

Lemma cut_first_None_count (s : string) :
  cut_first c s = None <-> count_char c s = 0.
Proof.
  induction s as [|x s IH]; simpl; [tauto|].
  destruct (Ascii.eqb x c); [split; discriminate|].
  destruct (cut_first c s) as [[? ?]|]; simpl; split; intros H;
    try discriminate; try reflexivity.
  - apply IH in H; discriminate.
  - now apply IH.
Qed.

Lemma cut_first_count (s a b : string) :
  cut_first c s = Some (a, b) -> count_char c s = S (count_char c b).
Proof.
  revert a; induction s as [|x s IH]; intros a; simpl; [discriminate|].
  destruct (Ascii.eqb x c); [now intros [= <- <-]|].
  destruct (cut_first c s) as [[a' b']|]; [|discriminate].
  intros [= <- <-]; simpl; eauto.
Qed.

Lemma before_first_None (s : string) : cut_first c s = None -> before_first c s = s.
Proof. unfold before_first; now intros ->. Qed.

(** With a single occurrence, cutting at the first and at the last one is
    the same cut. *)
Lemma cut_last_single (s a b : string) :
  cut_first c s = Some (a, b) -> cut_first c b = None -> cut_last c s = Some (a, b).
Proof.
  intros H Hb.
  assert (Hl : cut_last c b = None) by now apply cut_last_None.
  revert a H; induction s as [|x s IH]; intros a; simpl; [discriminate|].
  destruct (Ascii.eqb x c) eqn:E.
  - intros [= <- <-]. now rewrite Hl.
  - destruct (cut_first c s) as [[a' b']|]; [|discriminate].
    intros [= <- <-]. now rewrite (IH a' eq_refl).
Qed.

Lemma cut_last_append (a b : string) :
  cut_first c b = None -> cut_last c (a +++ String c b) = Some (a, b).
Proof.
  intros Hb. apply cut_last_None in Hb.
  induction a as [|x a IH]; simpl.
  - now rewrite Hb, Ascii.eqb_refl.
  - now rewrite IH.
Qed.

End SplitOnChar.

(* ================================================================== *)
(** * The image string parser                                           *)
(* ================================================================== *)

(** What the loop body of [marshalImages] computes: it cuts the string at
    its first [:] and panics when there is none. *)
Lemma marshalImage_eq (image : string) :
  marshalImage image =
    match cut_first ":" image with
    | None => Panic (IndexOutOfRange 1 1)
    | Some (path, rest) => Ok (image_of path (before_first ":" rest))
    end.
Proof.
  unfold marshalImage.
  rewrite (Split_char_index0 ":" image); simpl bind.
  rewrite (Split_char_last "/"), (Split_char_index0 "/"); simpl bind.
  rewrite (Split_char_index1 ":" image).
  unfold image_of, path_host, before_first.
  destruct (cut_first ":" image) as [[path rest]|]; reflexivity.
Qed.

Lemma marshalImages_emit (images : list string) :
  marshalImages images =
    emit_all (fun image => d <- marshalImage image;; Ok [d]) images.
Proof.
  unfold marshalImages.
  rewrite for_range_ext with
    (body' := fun acc x => ys <- (d <- marshalImage x;; Ok [d]);; Ok (acc ++ ys)).
  - rewrite for_range_emit. now destruct (emit_all _ images).
  - intros acc x. now destruct (marshalImage x).
Qed.

Lemma Contains_io_nonempty (s : string) : Contains s ".io" = true -> s <> "".
Proof. now intros H ->. Qed.

(** Formatting the image built from a path with a [/] and a version gives
    back [path:version]. *)
Lemma String_image_of (path version : string) :
  Contains path "/" = true ->
  DockerImage_String (image_of path version) = path +++ ":" +++ version.
Proof.
  intros Hslash.
  rewrite (Contains_char "/") in Hslash.
  unfold DockerImage_String, image_of, path_host, before_first; simpl.
  destruct (cut_first "/" path) as [[h r]|] eqn:E; [|discriminate].
  apply cut_first_Some in E as [-> _].
  destruct (Contains h ".io") eqn:Hio; simpl.
  - apply Contains_io_nonempty in Hio.
    apply String.eqb_neq in Hio; rewrite Hio; simpl.
    change (h +++ String "/" r) with (h +++ "/" +++ r).
    rewrite <- (append_assoc h "/" r), TrimPrefix_append.
    now rewrite !append_assoc.
  - reflexivity.
Qed.

(** Without a [.io] first segment the same holds for every path. *)
Lemma String_image_of_no_host (path version : string) :
  path_host path = "" ->
  DockerImage_String (image_of path version) = path +++ ":" +++ version.
Proof.
  intros H; unfold DockerImage_String, image_of; simpl; now rewrite H.
Qed.

(** C2 as stated fails: on an image string with two colons the parser takes
    the text between the first and the second colon for the tag, not the
    text after the last one. *)
Lemma marshalImage_not_last_colon :
  exists d,
    marshalImage "localhost:5000/app/web:1.0" = Ok d /\
    Version d = "5000/app/web" /\
    after_last ":" "localhost:5000/app/web:1.0" = "1.0" /\
    ~ splits_on_last_colon "localhost:5000/app/web:1.0" d.
Proof.
  eexists; repeat split; try reflexivity.
  intros [H _]; vm_compute in H; discriminate.
Qed.

(** C2, amended: the parser cuts at the FIRST [:].  The path part, from
    which Host, Repository and Name are derived, is the text before the
    first [:]; the tag is the text between the first and the second [:] (all
    the text after the first one when there is no second).  When the string
    has exactly one [:] this is the split on the last [:]. *)
Theorem marshalImage_splits_on_first_colon (image : string) (d : DockerImage) :
  marshalImage image = Ok d ->
  exists path rest,
    cut_first ":" image = Some (path, rest) /\
    d = image_of path (before_first ":" rest) /\
    (count_char ":" image = 1 -> splits_on_last_colon image d /\ Version d = rest).
Proof.
  rewrite marshalImage_eq.
  destruct (cut_first ":" image) as [[path rest]|] eqn:E; [|discriminate].
  intros [= <-]. exists path, rest.
  split; [reflexivity|]. split; [reflexivity|].
  intros Hcount. rewrite (cut_first_count _ _ _ _ E) in Hcount.
  assert (Hr : cut_first ":" rest = None) by (apply cut_first_None_count; lia).
  assert (Hv : before_first ":" rest = rest) by now apply before_first_None.
  unfold splits_on_last_colon, after_last, before_last.
  rewrite (cut_last_single _ _ _ _ E Hr); simpl.
  rewrite Hv; auto.
Qed.

Lemma marshalImage_splits_on_first_colon_witness :
  exists path rest,
    cut_first ":" "gcr.io/proj/proxy:1.0" = Some (path, rest) /\
    image_of "gcr.io/proj/proxy" "1.0" = image_of path (before_first ":" rest) /\
    (count_char ":" "gcr.io/proj/proxy:1.0" = 1 ->
     splits_on_last_colon "gcr.io/proj/proxy:1.0" (image_of "gcr.io/proj/proxy" "1.0") /\
     Version (image_of "gcr.io/proj/proxy" "1.0") = rest).
Proof.
  apply (marshalImage_splits_on_first_colon "gcr.io/proj/proxy:1.0").
  reflexivity.
Defined.

(** C7 as stated fails: an image string with a registry port has a [:] and
    a [/], and formatting its parse drops the tag. *)
Lemma roundtrip_loses_tag :
  Contains "localhost:5000/app/web:1.0" ":" = true /\
  Contains "localhost:5000/app/web:1.0" "/" = true /\
  exists d,
    marshalImage "localhost:5000/app/web:1.0" = Ok d /\
    DockerImage_String d = "localhost:5000/app/web" /\
    ~ equivalent_up_to_host "localhost:5000/app/web:1.0" (DockerImage_String d).
Proof.
  repeat split; try reflexivity.
  eexists; repeat split; try reflexivity.
  intros [H _]; vm_compute in H; discriminate.
Qed.

Lemma HasPrefix_longer (s p : string) :
  String.length s < String.length p -> HasPrefix s p = false.
Proof.
  intros H. destruct (HasPrefix s p) eqn:E; [|reflexivity].
  apply HasPrefix_length in E; lia.
Qed.

(** C7, amended: for every image string with exactly one [:] (and a [/]),
    formatting the parse gives a string equivalent to it under the host
    heuristic, and the string itself when a [/] stands before the [:]. *)
Theorem roundtrip_single_colon (image : string) :
  count_char ":" image = 1 ->
  Contains image "/" = true ->
  exists d,
    marshalImage image = Ok d /\
    equivalent_up_to_host image (DockerImage_String d) /\
    (Contains (before_first ":" image) "/" = true -> DockerImage_String d = image).
Proof.
  intros Hcount _.
  rewrite marshalImage_eq. unfold before_first at 2.
  destruct (cut_first ":" image) as [[path tag]|] eqn:E.
  2:{ apply cut_first_None_count in E; lia. }
  rewrite (cut_first_count _ _ _ _ E) in Hcount.
  assert (Ht : cut_first ":" tag = None) by (apply cut_first_None_count; lia).
  rewrite (before_first_None _ _ Ht).
  destruct (cut_first_Some _ _ _ _ E) as [HS _].
  assert (Hsame : forall p, p +++ ":" +++ tag = p +++ String ":" tag) by reflexivity.
  eexists; split; [reflexivity|]. split.
  - destruct (Contains path "/") eqn:Hslash.
    { rewrite String_image_of, Hsame, <- HS by assumption. split; reflexivity. }
    destruct (String.eqb_spec (path_host path) "") as [Hh|Hh].
    { rewrite String_image_of_no_host, Hsame, <- HS by assumption. split; reflexivity. }
    (* a [.io] path without [/]: the result is [path/path:tag] *)
    rewrite (Contains_char "/") in Hslash.
    destruct (cut_first "/" path) as [[? ?]|] eqn:Ep; [discriminate|].
    assert (Hhost : path_host path = path).
    { unfold path_host in *. rewrite (before_first_None _ _ Ep) in *.
      destruct (Contains path ".io"); congruence. }
    apply String.eqb_neq in Hh.
    assert (Hrepo : strip_host path = path).
    { unfold strip_host, image_of; simpl. rewrite Hh; simpl. rewrite Hhost.
      unfold TrimPrefix. rewrite HasPrefix_longer; [reflexivity|].
      rewrite length_append; simpl; lia. }
    assert (Hfmt : DockerImage_String (image_of path tag) =
                   (path +++ String "/" path) +++ String ":" tag).
    { unfold DockerImage_String.
      change (Repository (image_of path tag)) with (strip_host path).
      change (Host (image_of path tag)) with (path_host path).
      rewrite Hh, Hrepo, Hhost; simpl. now rewrite !append_assoc. }
    rewrite Hfmt, HS. unfold equivalent_up_to_host, after_last, before_last.
    rewrite !cut_last_append by assumption. split; [reflexivity|].
    rewrite Hrepo.
    unfold strip_host, image_of; simpl.
    assert (Hh2 : path_host (path +++ String "/" path) = path).
    { unfold path_host, before_first. rewrite cut_first_append by assumption.
      unfold path_host in Hhost. rewrite (before_first_None _ _ Ep) in Hhost.
      exact Hhost. }
    rewrite Hh2. rewrite Hhost in Hh. rewrite Hh; simpl.
    change (path +++ String "/" path) with (path +++ "/" +++ path).
    now rewrite <- append_assoc, TrimPrefix_append.
  - intros Hslash. rewrite String_image_of by assumption. now rewrite HS.
Qed.

Lemma roundtrip_single_colon_witness :
  exists d,
    marshalImage "gcr.io/proj/proxy:1.0" = Ok d /\
    equivalent_up_to_host "gcr.io/proj/proxy:1.0" (DockerImage_String d) /\
    (Contains (before_first ":" "gcr.io/proj/proxy:1.0") "/" = true ->
     DockerImage_String d = "gcr.io/proj/proxy:1.0").
Proof.
  apply (roundtrip_single_colon "gcr.io/proj/proxy:1.0"); reflexivity.
Defined.

(* ================================================================== *)
(** * Images of containers and of their arguments                       *)
(* ================================================================== *)

Lemma getImagesFromContainerArgs_emit (args : list string) :
  getImagesFromContainerArgs args = emit_all arg_images args.
Proof.
  unfold getImagesFromContainerArgs.
  rewrite for_range_ext with
    (body' := fun acc x => ys <- arg_images x;; Ok (acc ++ ys)).
  - rewrite for_range_emit. now destruct (emit_all _ args).
  - intros acc x. unfold arg_images.
    destruct (negb (Contains x ":") || Contains x "=:"); simpl.
    + now rewrite app_nil_r.
    + now destruct (at_index (Split x "=") 1).
Qed.

Lemma getImagesFromContainers_emit (containers : list Container) :
  getImagesFromContainers containers = emit_all container_images containers.
Proof.
  unfold getImagesFromContainers.
  rewrite for_range_ext with
    (body' := fun acc x => ys <- container_images x;; Ok (acc ++ ys)).
  - rewrite for_range_emit. now destruct (emit_all _ containers).
  - intros acc x. unfold container_images.
    destruct (getImagesFromContainerArgs (Args x)); simpl; auto.
    now rewrite <- app_assoc.
Qed.

Lemma getImagesFromContainerArgs_one (arg : string) :
  getImagesFromContainerArgs [arg] = arg_images arg.
Proof.
  rewrite getImagesFromContainerArgs_emit; simpl.
  destruct (arg_images arg); simpl; auto. now rewrite app_nil_r.
Qed.

(** An argument never makes the extractor return an error: it yields
    images or panics. *)
Lemma getImagesFromContainerArgs_no_error (args : list string) (e : error) :
  getImagesFromContainerArgs args <> Err e.
Proof.
  rewrite getImagesFromContainerArgs_emit.
  induction args as [|arg args IH]; simpl; [discriminate|].
  unfold arg_images at 1.
  destruct (negb (Contains arg ":") || Contains arg "=:"); simpl.
  - destruct (emit_all arg_images args); simpl; congruence.
  - unfold at_index. destruct (nth_error (Split arg "=") 1); simpl; [|discriminate].
    destruct (emit_all arg_images args); simpl; congruence.
Qed.

Lemma HasPrefix_append_l (s p q : string) :
  HasPrefix s (p +++ q) = true -> HasPrefix s p = true.
Proof.
  revert s; induction p as [|c p IH]; intros s; simpl.
  - now destruct s.
  - destruct s as [|x s]; simpl; [discriminate|].
    intros H; apply andb_prop in H as [-> H]; simpl; eauto.
Qed.

(** A string that holds [p] followed by [q] holds [p]. *)
Lemma Contains_append_l (s p q : string) :
  Contains s (p +++ q) = true -> Contains s p = true.
Proof.
  unfold Contains.
  induction s as [|x s IH].
  - rewrite (Index_eq "" (p +++ q)), (Index_eq "" p).
    destruct (HasPrefix "" (p +++ q)) eqn:E; [|discriminate].
    now rewrite (HasPrefix_append_l _ _ _ E).
  - rewrite (Index_eq (String x s) (p +++ q)), (Index_eq (String x s) p).
    destruct (HasPrefix (String x s) (p +++ q)) eqn:E.
    + now rewrite (HasPrefix_append_l _ _ _ E).
    + destruct (HasPrefix (String x s) p); [reflexivity|].
      destruct (Index s (p +++ q)); simpl; [|discriminate].
      intros _. destruct (Index s p); simpl; [reflexivity|].
      now specialize (IH eq_refl).
Qed.

(** C4 as stated fails: the emitted string is not the whole text after the
    first [=] when that text holds another [=]. *)
Lemma arg_value_not_verbatim :
  Contains "--env=IMAGE=nginx:1.0" ":" = true /\
  Contains "--env=IMAGE=nginx:1.0" "=:" = false /\
  cut_first "=" "--env=IMAGE=nginx:1.0" = Some ("--env", "IMAGE=nginx:1.0") /\
  getImagesFromContainerArgs ["--env=IMAGE=nginx:1.0"] = Ok ["IMAGE"] /\
  "IMAGE" <> "IMAGE=nginx:1.0".
Proof. repeat split; try reflexivity; discriminate. Qed.

Lemma before_first_whole (c : ascii) (s : string) :
  before_first c s = s <-> cut_first c s = None.
Proof.
  split; [|apply before_first_None].
  unfold before_first. destruct (cut_first c s) as [[a b]|] eqn:E; [|reflexivity].
  intros ->. apply cut_first_Some in E as [E _].
  apply (f_equal String.length) in E. rewrite length_append in E. simpl in E. lia.
Qed.

(** Where an argument stands in the list does not matter: the images of
    the list are those of the arguments before it, its own and those of
    the arguments after it. *)
Lemma getImagesFromContainerArgs_at (before after : list string) (arg : string) :
  getImagesFromContainerArgs (before ++ arg :: after) =
    (images <- getImagesFromContainerArgs before;;
     own <- arg_images arg;;
     rest <- getImagesFromContainerArgs after;;
     Ok (images ++ own ++ rest)).
Proof.
  rewrite !getImagesFromContainerArgs_emit, emit_all_app; simpl.
  destruct (emit_all arg_images before); simpl; auto.
  destruct (arg_images arg); simpl; auto.
  destruct (emit_all arg_images after); reflexivity.
Qed.

(** C4, amended: an argument without [:] or with [=:] is never extracted,
    wherever it stands in the argument list; an argument with a [=] is
    extracted if and only if it contains [:] and not [=:], and the string
    emitted for it, wherever it stands, is the text after the first [=] up
    to the next [=], which is all the text after the first [=] exactly
    when the argument has a single [=]. *)
Theorem arg_extraction (arg : string) (before after : list string) :
  (Contains arg ":" = false \/ Contains arg "=:" = true ->
   getImagesFromContainerArgs (before ++ arg :: after) =
     (images <- getImagesFromContainerArgs before;;
      rest <- getImagesFromContainerArgs after;;
      Ok (images ++ rest))) /\
  (forall key value,
      cut_first "=" arg = Some (key, value) ->
      ((exists image, getImagesFromContainerArgs [arg] = Ok [image]) <->
       Contains arg ":" = true /\ Contains arg "=:" = false) /\
      (Contains arg ":" = true -> Contains arg "=:" = false ->
       getImagesFromContainerArgs (before ++ arg :: after) =
         (images <- getImagesFromContainerArgs before;;
          rest <- getImagesFromContainerArgs after;;
          Ok (images ++ before_first "=" value :: rest))) /\
      (before_first "=" value = value <-> count_char "=" arg = 1)).
Proof.
  split.
  - intros Hfilter. rewrite getImagesFromContainerArgs_at.
    assert (Hown : arg_images arg = Ok []).
    { unfold arg_images. destruct Hfilter as [-> | ->]; simpl; [reflexivity|].
      now rewrite orb_true_r. }
    rewrite Hown; simpl. reflexivity.
  - intros key value E.
    assert (Hown : arg_images arg =
                   if negb (Contains arg ":") || Contains arg "=:" then Ok []
                   else Ok [before_first "=" value]).
    { unfold arg_images. rewrite (Split_char_index1 "=" arg), E. reflexivity. }
    split; [|split].
    + rewrite getImagesFromContainerArgs_one, Hown.
      destruct (Contains arg ":"), (Contains arg "=:"); simpl; split;
        try (intros [image H]; discriminate);
        try (intros [H1 H2]; discriminate);
        eauto.
    + intros Hc He. rewrite getImagesFromContainerArgs_at, Hown, Hc, He; simpl.
      reflexivity.
    + rewrite before_first_whole, cut_first_None_count, (cut_first_count _ _ _ _ E).
      split; intros H; lia.
Qed.

Lemma arg_extraction_witness :
  getImagesFromContainerArgs ["--a=x:1"; "--b=y:2"; "--c=z:3"] = Ok ["x:1"; "y:2"; "z:3"] /\
  getImagesFromContainerArgs ["--a=x:1"; "--flag=value"; "--c=z:3"] = Ok ["x:1"; "z:3"] /\
  getImagesFromContainerArgs ["--a=x:1"; "--flag=:value"; "--c=z:3"] = Ok ["x:1"; "z:3"] /\
  getImagesFromContainerArgs ["--proxy-image=gcr.io/proj/proxy:1.0"] =
    Ok ["gcr.io/proj/proxy:1.0"].
Proof.
  split; [|split; [|split]].
  - exact (proj1 (proj2 (proj2 (arg_extraction "--b=y:2" ["--a=x:1"] ["--c=z:3"])
                           "--b" "y:2" eq_refl)) eq_refl eq_refl).
  - exact (proj1 (arg_extraction "--flag=value" ["--a=x:1"] ["--c=z:3"])
             (or_introl eq_refl)).
  - exact (proj1 (arg_extraction "--flag=:value" ["--a=x:1"] ["--c=z:3"])
             (or_intror eq_refl)).
  - exact (proj1 (proj2 (proj2 (arg_extraction "--proxy-image=gcr.io/proj/proxy:1.0" [] [])
                           "--proxy-image" "gcr.io/proj/proxy:1.0" eq_refl))
             eq_refl eq_refl).
Defined.

(** C10: an argument with a [:] and no [=] passes the filter, its split on
    [=] has one element, and indexing element 1 panics; so does the
    extraction of every argument list that holds such an argument. *)
Theorem arg_without_equals_panics (arg : string) :
  Contains arg ":" = true ->
  Contains arg "=" = false ->
  Contains arg "=:" = false /\
  Split arg "=" = [arg] /\
  getImagesFromContainerArgs [arg] = Panic (IndexOutOfRange 1 1) /\
  forall before after,
    exists p, getImagesFromContainerArgs (before ++ arg :: after) = Panic p.
Proof.
  intros Hcolon Heq.
  assert (Hec : Contains arg "=:" = false).
  { destruct (Contains arg "=:") eqn:E; [|reflexivity].
    change "=:" with ("=" +++ ":") in E.
    apply Contains_append_l in E; congruence. }
  assert (Hcut : cut_first "=" arg = None).
  { rewrite (Contains_char "=") in Heq.
    now destruct (cut_first "=" arg) as [[? ?]|]. }
  assert (Hone : arg_images arg = Panic (IndexOutOfRange 1 1)).
  { unfold arg_images. rewrite Hcolon, Hec; simpl.
    now rewrite (Split_char_index1 "=" arg), Hcut. }
  repeat split; auto.
  - now rewrite (Split_char "=" arg), Hcut.
  - now rewrite getImagesFromContainerArgs_one.
  - intros before after.
    pose proof (getImagesFromContainerArgs_no_error before) as Hne.
    rewrite getImagesFromContainerArgs_emit in *.
    rewrite emit_all_app; simpl. rewrite Hone; simpl.
    destruct (emit_all arg_images before) as [imgs|e|p]; simpl; eauto.
    now destruct (Hne e).
Qed.

Lemma arg_without_equals_panics_witness :
  Contains "host:8080" "=:" = false /\
  Split "host:8080" "=" = ["host:8080"] /\
  getImagesFromContainerArgs ["host:8080"] = Panic (IndexOutOfRange 1 1) /\
  forall before after,
    exists p, getImagesFromContainerArgs (before ++ "host:8080" :: after) = Panic p.
Proof.
  apply (arg_without_equals_panics "host:8080"); reflexivity.
Defined.

(* ================================================================== *)
(** * Deduplication                                                     *)
(* ================================================================== *)

Section DedupeFacts.
Variable same : string -> string -> bool.
Hypothesis same_trans :
  forall x y z, same x y = true -> same y z = true -> same x z = true.

Lemma contains_existsb (images : list string) (image : string) :
  contains same images image = existsb (fun earlier => same earlier image) images.
Proof.
  induction images as [|x xs IH]; simpl; [reflexivity|].
  now destruct (same x image).
Qed.

(** The loop invariant of [dedupeImages]: [image] is [contains]ed in the
    deduplicated list exactly when some element seen so far is the same. *)
Lemma dedupe_invariant (images seen deduped : list string) :
  (forall image,
      contains same deduped image = existsb (fun earlier => same earlier image) seen) ->
  fold_left
    (fun dedupedImageList image =>
       if negb (contains same dedupedImageList image)
       then dedupedImageList ++ [image]
       else dedupedImageList)
    images deduped
  = deduped ++ first_occurrences_from same seen images.
Proof.
  revert seen deduped; induction images as [|x xs IH]; intros seen deduped Hinv; simpl.
  - now rewrite app_nil_r.
  - rewrite <- Hinv.
    destruct (contains same deduped x) eqn:Hx; simpl.
    + apply IH. intros y. rewrite existsb_app, <- Hinv; simpl.
      rewrite orb_false_r.
      destruct (same x y) eqn:Hxy; [|now rewrite orb_false_r].
      rewrite orb_true_r.
      rewrite contains_existsb in *.
      apply existsb_exists in Hx as (z & Hz & Hzx).
      apply existsb_exists. exists z; split; eauto.
    + rewrite (IH (seen ++ [x]) (deduped ++ [x])).
      * now rewrite <- app_assoc.
      * intros y. rewrite !contains_existsb, !existsb_app.
        now rewrite <- contains_existsb, Hinv.
Qed.

(** C6: [dedupeImages] returns the subsequence of first occurrences under
    the case-insensitive comparison, in the original order and with the
    casing of each first occurrence. *)
Theorem dedupeImages_first_occurrences (images : list string) :
  dedupeImages same images = first_occurrences same images.
Proof.
  unfold dedupeImages, first_occurrences.
  now rewrite (dedupe_invariant images [] []).
Qed.

End DedupeFacts.

Lemma equal_fold_byte_trans (a b c : ascii) :
  Fixture.equal_fold_byte a b = true ->
  Fixture.equal_fold_byte b c = true ->
  Fixture.equal_fold_byte a c = true.
Proof.
  unfold Fixture.equal_fold_byte.
  generalize (nat_of_ascii a) (nat_of_ascii b) (nat_of_ascii c); intros x y z.
  destruct (Nat.ltb_spec y x), (Nat.ltb_spec z y), (Nat.ltb_spec z x);
    rewrite !orb_true_iff, !andb_true_iff, !Nat.eqb_eq, !Nat.leb_le; lia.
Qed.

Lemma EqualFold_trans (x y z : string) :
  Fixture.EqualFold x y = true ->
  Fixture.EqualFold y z = true ->
  Fixture.EqualFold x z = true.
Proof.
  revert y z; induction x as [|a x IH]; intros [|b y] [|c z]; simpl;
    try discriminate; auto.
  rewrite !andb_true_iff. intros [Hab Hxy] [Hbc Hyz].
  split; [eapply equal_fold_byte_trans|eapply IH]; eauto.
Qed.

Lemma dedupeImages_first_occurrences_witness :
  dedupeImages Fixture.EqualFold ["nginx:1.0"; "NGINX:1.0"] = ["nginx:1.0"] /\
  dedupeImages Fixture.EqualFold ["nginx:1.0"; "busybox:1.2"; "Nginx:1.0"; "BusyBox:1.2"] =
    ["nginx:1.0"; "busybox:1.2"].
Proof.
  split; rewrite (dedupeImages_first_occurrences Fixture.EqualFold EqualFold_trans);
    reflexivity.
Defined.

(* ================================================================== *)
(** * Documents                                                         *)
(* ================================================================== *)

Section DocumentFacts.
Variable yaml : Yaml.

Lemma skipped_document_continue (doc : string) (imageList : list string) :
  skipped_document yaml doc ->
  GetImagesInPath_document yaml imageList doc = Ok imageList.
Proof.
  unfold GetImagesInPath_document.
  intros [(e & ->) | (typeMeta & e & -> & Hp & Ha & ->)]; [reflexivity|].
  apply String.eqb_neq in Hp, Ha. now rewrite Hp, Ha.
Qed.

Lemma fatal_document_error (doc : string) (imageList : list string) :
  fatal_document yaml doc ->
  exists e, GetImagesInPath_document yaml imageList doc = Err e.
Proof.
  unfold GetImagesInPath_document.
  intros (typeMeta & e & -> & [[Hk ->] | [Hk ->]]); rewrite Hk; simpl; eauto.
Qed.

Lemma pod_template_document_images (doc : string) (contents : BaseType)
    (imageList : list string) :
  pod_template_document yaml doc contents ->
  GetImagesInPath_document yaml imageList doc =
    (initImages <- getImagesFromContainers (InitContainers contents);;
     images <- getImagesFromContainers (Containers contents);;
     Ok (imageList ++ initImages ++ images)).
Proof.
  unfold GetImagesInPath_document.
  intros (typeMeta & -> & Hp & Ha & ->).
  apply String.eqb_neq in Hp, Ha. rewrite Hp, Ha.
  destruct (InitContainers contents) as [|ic ics] eqn:Ei.
  - simpl. destruct (Containers contents) as [|c cs] eqn:Ec; simpl.
    + now rewrite app_nil_r.
    + now destruct (getImagesFromContainers (c :: cs)).
  - change (0 <? List.length (ic :: ics))%nat with true; cbv iota.
    destruct (getImagesFromContainers (ic :: ics)) as [initImages| |]; simpl; auto.
    destruct (Containers contents) as [|c cs] eqn:Ec; simpl.
    + now rewrite app_nil_r.
    + destruct (getImagesFromContainers (c :: cs)); simpl; auto.
      now rewrite app_assoc.
Qed.

(** C5: a document whose kind cannot be parsed, or of a non-special kind
    that does not parse as a pod template, is skipped and the loop goes
    on as if the document were absent; a Prometheus or Alertmanager
    document whose full parse fails makes the loop, [GetImagesInPath] and
    the command return an error, and the process exit non-zero. *)
Theorem document_error_severity (doc : string) (before after : list string)
    (imageList : list string) :
  (skipped_document yaml doc ->
   GetImagesInPath_loop yaml (before ++ doc :: after) imageList =
     GetImagesInPath_loop yaml (before ++ after) imageList) /\
  (fatal_document yaml doc ->
   (forall images, GetImagesInPath_loop yaml before imageList = Ok images ->
      exists e, GetImagesInPath_loop yaml (before ++ doc :: after) imageList = Err e) /\
   (forall EqualFold w workingDir path files images,
      Getwd w = Ok workingDir ->
      getYamlFiles w (filepath_Join workingDir path) = Ok files ->
      splitYamlFiles w files = Ok (before ++ doc :: after) ->
      GetImagesInPath_loop yaml before [] = Ok images ->
      exists e,
        NewListCommand_RunE EqualFold yaml w [path] = Err e /\
        exitCode (NewListCommand_RunE EqualFold yaml w [path]) <> 0)).
Proof.
  unfold GetImagesInPath_loop. split.
  - intros Hskip. rewrite !for_range_app.
    destruct (for_range before _ imageList) as [images| |]; simpl; auto.
    now rewrite skipped_document_continue.
  - intros Hfatal.
    assert (Hloop : forall l images,
               for_range before (GetImagesInPath_document yaml) l = Ok images ->
               exists e,
                 for_range (before ++ doc :: after) (GetImagesInPath_document yaml) l
                 = Err e).
    { intros l images H. rewrite for_range_app, H; simpl.
      destruct (fatal_document_error doc images Hfatal) as (e & ->); simpl; eauto. }
    split; [apply Hloop|].
    intros EqualFold w workingDir path files images Hwd Hfiles Hsplit Hbefore.
    destruct (Hloop _ _ Hbefore) as (e & He).
    unfold NewListCommand_RunE, runListCommand, GetImagesInPath, GetImagesInPath_loop.
    rewrite Hwd; simpl. rewrite Hfiles; simpl. rewrite Hsplit; simpl.
    rewrite He; simpl. eexists; split; [reflexivity|discriminate].
Qed.

(** C8: a pod-template-shaped document adds the images of its init
    containers, then those of its containers; a container list emits, per
    container in the listed order, the image field and then the images
    of the container's arguments. *)
Theorem emission_order (doc : string) (contents : BaseType) (imageList : list string) :
  pod_template_document yaml doc contents ->
  GetImagesInPath_document yaml imageList doc =
    (initImages <- getImagesFromContainers (InitContainers contents);;
     images <- getImagesFromContainers (Containers contents);;
     Ok (imageList ++ initImages ++ images)) /\
  getImagesFromContainers [] = Ok [] /\
  forall container containers,
    getImagesFromContainers (container :: containers) =
      (argImages <- getImagesFromContainerArgs (Args container);;
       rest <- getImagesFromContainers containers;;
       Ok (Image container :: argImages ++ rest)).
Proof.
  intros Hdoc. split; [now apply pod_template_document_images|].
  split; [reflexivity|].
  intros container containers. rewrite !getImagesFromContainers_emit; simpl.
  unfold container_images at 1.
  destruct (getImagesFromContainerArgs (Args container)); reflexivity.
Qed.

End DocumentFacts.

Lemma document_error_severity_witness :
  skipped_document Fixture.yaml Fixture.no_kind /\
  skipped_document Fixture.yaml Fixture.odd_service /\
  fatal_document Fixture.yaml Fixture.broken_prometheus /\
  fatal_document Fixture.yaml Fixture.broken_alertmanager /\
  GetImagesInPath_loop Fixture.yaml
    [Fixture.deployment; Fixture.no_kind; Fixture.prometheus] [] =
  GetImagesInPath_loop Fixture.yaml [Fixture.deployment; Fixture.prometheus] [] /\
  exists e,
    GetImagesInPath_loop Fixture.yaml
      [Fixture.deployment; Fixture.broken_prometheus; Fixture.prometheus] [] = Err e.
Proof.
  assert (H1 : skipped_document Fixture.yaml Fixture.no_kind).
  { left; eexists; reflexivity. }
  assert (H2 : skipped_document Fixture.yaml Fixture.odd_service).
  { right; do 2 eexists; repeat split; try reflexivity; discriminate. }
  assert (H3 : fatal_document Fixture.yaml Fixture.broken_prometheus).
  { do 2 eexists; split; [reflexivity|left; split; reflexivity]. }
  assert (H4 : fatal_document Fixture.yaml Fixture.broken_alertmanager).
  { do 2 eexists; split; [reflexivity|right; split; reflexivity]. }
  split; [exact H1|]. split; [exact H2|]. split; [exact H3|]. split; [exact H4|].
  split.
  - exact (proj1 (document_error_severity Fixture.yaml Fixture.no_kind
                    [Fixture.deployment] [Fixture.prometheus] []) H1).
  - exact (proj1 (proj2 (document_error_severity Fixture.yaml Fixture.broken_prometheus
                           [Fixture.deployment] [Fixture.prometheus] []) H3)
             _ eq_refl).
Defined.

Lemma emission_order_witness :
  pod_template_document Fixture.yaml Fixture.deployment
    {| InitContainers := []; Containers := [Fixture.nginx; Fixture.busybox] |} /\
  GetImagesInPath_document Fixture.yaml [] Fixture.deployment =
    Ok ["nginx:1.0"; "busybox:1.2"; "gcr.io/proj/proxy:1.0"].
Proof.
  assert (H : pod_template_document Fixture.yaml Fixture.deployment
                {| InitContainers := []; Containers := [Fixture.nginx; Fixture.busybox] |}).
  { eexists; repeat split; try reflexivity; discriminate. }
  split; [exact H|].
  rewrite (proj1 (emission_order Fixture.yaml _ _ [] H)).
  reflexivity.
Defined.

(* ================================================================== *)
(** * Splitting a file into documents                                   *)
(* ================================================================== *)

(** C9: the content is split on the separator line [---]; the separator is
    [\r\n---\r\n] only when the program runs on Windows and the content
    holds [\r\n], and [\n---\n] otherwise; nothing but separators is lost;
    an empty content is one empty document. *)
Theorem doSplit_separator (goos data : string) :
  let sep :=
    if (goos =? "windows")%string && Contains data CRLF
    then CRLF +++ "---" +++ CRLF
    else LF +++ "---" +++ LF in
  doSplit goos data = Split data sep /\
  Strings.Join (doSplit goos data) sep = data /\
  doSplit goos "" = [""] /\
  doSplit "linux" ("a" +++ CRLF +++ "---" +++ CRLF +++ "b") =
    ["a" +++ CRLF +++ "---" +++ CRLF +++ "b"] /\
  doSplit "windows" ("a" +++ CRLF +++ "---" +++ CRLF +++ "b") = ["a"; "b"] /\
  doSplit "windows" ("a" +++ LF +++ "---" +++ LF +++ "b") = ["a"; "b"].
Proof.
  assert (H : doSplit goos data =
              Split data (if (goos =? "windows")%string && Contains data CRLF
                          then CRLF +++ "---" +++ CRLF
                          else LF +++ "---" +++ LF)).
  { unfold doSplit. rewrite andb_comm.
    now destruct ((goos =? "windows")%string && Contains data CRLF). }
  cbv zeta. split; [exact H|]. split.
  - rewrite H. apply Join_Split.
    destruct ((goos =? "windows")%string && Contains data CRLF); discriminate.
  - repeat split; reflexivity.
Qed.

(* ================================================================== *)
(** * Whole runs                                                        *)
(* ================================================================== *)

(** Whenever the images are found and an output path is given,
    [runListCommand] returns nil, also when the file cannot be created. *)
Lemma runListCommand_drops_create_error (EqualFold : string -> string -> bool)
    (yaml : Yaml) (w : World) (path workingDir : string) (images : list DockerImage)
    (e : error) :
  Getwd w = Ok workingDir ->
  GetImagesInPath EqualFold yaml w (filepath_Join workingDir path) = Ok images ->
  flag_output w <> "" ->
  Create w (filepath_Join workingDir (flag_output w)) = Some e ->
  fst (writeListToFile w images (filepath_Join workingDir (flag_output w))) =
    Some (Errorf "creating file" e) /\
  runListCommand EqualFold yaml w [path] = Ok no_effects.
Proof.
  intros Hwd Himages Hflag Hcreate.
  unfold runListCommand, writeListToFile.
  rewrite Hwd; simpl. rewrite Himages; simpl.
  apply String.eqb_neq in Hflag. rewrite Hflag, Hcreate; simpl. auto.
Qed.

(** The parser panics exactly on the strings without [:]. *)
Lemma marshalImage_panics_iff (image : string) :
  marshalImage image = Panic (IndexOutOfRange 1 1) <-> Contains image ":" = false.
Proof.
  rewrite marshalImage_eq, (Contains_char ":").
  destruct (cut_first ":" image) as [[? ?]|]; split; (discriminate || reflexivity).
Qed.

(** One image string without [:] is enough for [marshalImages] to panic. *)
Lemma marshalImages_panics (before after : list string) (image : string) :
  Contains image ":" = false ->
  exists p, marshalImages (before ++ image :: after) = Panic p.
Proof.
  intros H. apply marshalImage_panics_iff in H.
  rewrite marshalImages_emit, emit_all_app; simpl. rewrite H; simpl.
  assert (Hne : forall e, marshalImages before <> Err e).
  { intros e. rewrite marshalImages_emit.
    induction before as [|x xs IH]; simpl; [discriminate|].
    rewrite marshalImage_eq.
    destruct (cut_first ":" x) as [[? ?]|]; simpl; [|discriminate].
    destruct (emit_all _ xs); simpl; congruence. }
  rewrite marshalImages_emit in Hne.
  destruct (emit_all _ before) as [ds|e|p]; simpl; eauto.
  now destruct (Hne e).
Qed.

(** C1: the output file cannot be created, and the command still returns
    nil: [runListCommand] drops the error [writeListToFile] returns.  The
    run writes nothing, prints nothing and exits with zero. *)
Theorem output_file_error_is_dropped :
  let w := Fixture.world Fixture.deployment "images.txt" in
  let run := NewListCommand_RunE Fixture.EqualFold Fixture.yaml w ["manifests"] in
  flag_output w <> "" /\
  Create w "/work/images.txt" = Some "permission denied" /\
  (exists images,
      GetImagesInPath Fixture.EqualFold Fixture.yaml w "/work/manifests" = Ok images /\
      fst (writeListToFile w images "/work/images.txt") =
        Some "creating file: permission denied") /\
  run = Ok no_effects /\
  exitCode run = 0.
Proof.
  cbv zeta. repeat split; try discriminate.
  eexists; split; vm_compute; reflexivity.
Qed.

(** C3: a container image without a tag reaches the parser without a [:],
    and the run panics at [imageTokens[1]]. *)
Theorem untagged_image_panics :
  let w := Fixture.world Fixture.untagged "" in
  UnmarshalBaseType Fixture.yaml Fixture.untagged =
    Ok {| InitContainers := []; Containers := [{| Image := "nginx"; Args := [] |}] |} /\
  GetImagesInPath_loop Fixture.yaml [Fixture.untagged] [] = Ok ["nginx"] /\
  Contains "nginx" ":" = false /\
  marshalImages ["nginx"] = Panic (IndexOutOfRange 1 1) /\
  NewListCommand_RunE Fixture.EqualFold Fixture.yaml w ["manifests"] =
    Panic (IndexOutOfRange 1 1).
Proof. cbv zeta. repeat split. Qed.

(* ================================================================== *)
(** * The file collector                                                *)
(* ================================================================== *)

(** Induction on a tree, with the property at hand for every entry of a
    directory. *)
Lemma Tree_nested_ind (P : Tree -> Prop) :
  (forall name, P (File name)) ->
  (forall name entries, Forall P entries -> P (Dir name entries)) ->
  (forall name err, P (UnreadableDir name err)) ->
  (forall name err, P (NoStat name err)) ->
  forall t, P t.
Proof.
  intros HFile HDir HUnreadable HNoStat.
  fix IH 1. intros [name|name entries|name err|name err].
  - apply HFile.
  - apply HDir. induction entries as [|e entries IHentries]; constructor.
    + apply IH.
    + exact IHentries.
  - apply HUnreadable.
  - apply HNoStat.
Qed.

Section WalkFacts.
Context {St : Type}.
Variable walkFn : St -> string -> walkarg -> St * walkerr.

Lemma walk_Dir (path name : string) (entries : list Tree) (s : St) :
  walk walkFn path (Dir name entries) s =
    let (s1, err1) :=
      walkFn s path (WalkInfo {| FileInfo_Name := name; IsDir := true |}) in
    match err1 with
    | WalkNil => walk_entries walkFn path entries s1
    | _ => (s1, err1)
    end.
Proof. reflexivity. Qed.

Lemma walk_entries_cons (path : string) (e : Tree) (entries : list Tree) (s : St) :
  walk_entries walkFn path (e :: entries) s =
    let (s', err) := walk walkFn (filepath_Join path (Tree_name e)) e s in
    match err, e with
    | WalkNil, _ => walk_entries walkFn path entries s'
    | SkipDir, File _ => (s', SkipDir)
    | SkipDir, _ => walk_entries walkFn path entries s'
    | WalkErr _, _ => (s', err)
    end.
Proof. reflexivity. Qed.

(** The state of a walk keeps every property the callback keeps. *)
Lemma walk_invariant (P : St -> Prop) :
  (forall s path a, P s -> P (fst (walkFn s path a))) ->
  forall t path s, P s -> P (fst (walk walkFn path t s)).
Proof.
  intros Hfn.
  induction t as [name|name entries IH|name err|name err] using Tree_nested_ind;
    intros path s Hs; try (simpl; now apply Hfn).
  rewrite walk_Dir.
  specialize (Hfn s path (WalkInfo {| FileInfo_Name := name; IsDir := true |}) Hs).
  destruct (walkFn s path _) as [s1 err1]; simpl in Hfn.
  destruct err1; simpl; auto.
  clear Hs. revert s1 Hfn.
  induction IH as [|e entries He _ IHentries]; intros s1 Hs1; [exact Hs1|].
  rewrite walk_entries_cons.
  specialize (He (filepath_Join path (Tree_name e)) s1 Hs1).
  destruct (walk walkFn _ e s1) as [s' err]; simpl in He.
  destruct err, e; simpl; auto.
Qed.

End WalkFacts.

Lemma getYamlFiles_walkFn_keeps_yaml (files : list string) (path : string) (a : walkarg) :
  Forall (fun file => is_yaml file = true) files ->
  Forall (fun file => is_yaml file = true) (fst (getYamlFiles_walkFn files path a)).
Proof.
  intros H. unfold getYamlFiles_walkFn.
  destruct a as [info|info err]; simpl; auto.
  destruct (IsDir info && (FileInfo_Name info =? ".git")%string); simpl; auto.
  destruct (IsDir info); simpl; auto.
  destruct (negb (Ext path =? ".yaml")%string && negb (Ext path =? ".yml")%string) eqn:E;
    simpl; auto.
  apply Forall_app; split; auto. constructor; auto.
  unfold is_yaml.
  destruct (Ext path =? ".yaml")%string, (Ext path =? ".yml")%string;
    simpl in *; congruence.
Qed.

(** X1: every path [getYamlFiles] returns has the extension [.yaml] or
    [.yml], whatever the tree holds. *)
Theorem getYamlFiles_only_yaml (w : World) (path : string) (files : list string) :
  getYamlFiles w path = Ok files ->
  Forall (fun file => Ext file = ".yaml" \/ Ext file = ".yml") files.
Proof.
  unfold getYamlFiles, Walk.
  pose proof (walk_invariant getYamlFiles_walkFn
                (Forall (fun file => is_yaml file = true))
                getYamlFiles_walkFn_keeps_yaml (Lstat w path) path [] (Forall_nil _)) as H.
  destruct (walk getYamlFiles_walkFn path (Lstat w path) []) as [found err].
  simpl in H.
  assert (Hfound : Forall (fun file => Ext file = ".yaml" \/ Ext file = ".yml") found).
  { eapply Forall_impl; [|exact H]. intros file Hy. unfold is_yaml in Hy.
    apply orb_true_iff in Hy as [Hy|Hy]; apply String.eqb_eq in Hy; auto. }
  destruct err; intros [= <-]; auto.
Qed.

Lemma getYamlFiles_only_yaml_witness :
  Forall (fun file => Ext file = ".yaml" \/ Ext file = ".yml")
    ["/work/manifests/app.yaml"].
Proof.
  apply (getYamlFiles_only_yaml (Fixture.world Fixture.deployment "") "/work/manifests").
  reflexivity.
Defined.

(** The walk of a readable tree adds the YAML files of the tree to the
    files found so far; it asks to skip exactly the directories named
    [.git]. *)
Lemma walk_readable (t : Tree) :
  forall path files,
    readable t = true ->
    walk getYamlFiles_walkFn path t files =
      (files ++ yaml_files path t,
       match t with
       | Dir name _ => if (name =? ".git")%string then SkipDir else WalkNil
       | _ => WalkNil
       end).
Proof.
  induction t as [name|name entries IH|name err|name err] using Tree_nested_ind;
    intros path files Hr.
  - simpl. unfold is_yaml.
    destruct (Ext path =? ".yaml")%string, (Ext path =? ".yml")%string; simpl;
      now rewrite ?app_nil_r.
  - rewrite walk_Dir. simpl in *.
    destruct (name =? ".git")%string eqn:Egit; simpl; [now rewrite app_nil_r|].
    revert files. induction IH as [|e entries He _ IHentries]; intros files.
    + simpl. now rewrite app_nil_r.
    + simpl in Hr. apply andb_prop in Hr as [Hre Hrest].
      rewrite walk_entries_cons, (He _ _ Hre).
      simpl flat_map. rewrite app_assoc.
      destruct e as [n|n es|n e0|n e0]; simpl in Hre |- *; try discriminate;
        try destruct (n =? ".git")%string; try discriminate;
        apply IHentries; exact Hrest.
  - discriminate.
  - discriminate.
Qed.

(** X2: on a readable tree [getYamlFiles] returns no error: it returns the
    YAML files of the tree outside the [.git] directories, in the order of
    the walk. *)
Theorem getYamlFiles_readable (w : World) (path : string) :
  readable (Lstat w path) = true ->
  getYamlFiles w path = Ok (yaml_files path (Lstat w path)).
Proof.
  intros Hr. unfold getYamlFiles, Walk.
  rewrite (walk_readable _ path [] Hr); simpl.
  destruct (Lstat w path) as [n|n es|n e|n e]; simpl; try reflexivity;
    destruct (n =? ".git")%string; reflexivity.
Qed.

Lemma getYamlFiles_readable_witness :
  getYamlFiles (Fixture.world Fixture.deployment "") "/work/manifests" =
    Ok ["/work/manifests/app.yaml"].
Proof.
  apply (getYamlFiles_readable (Fixture.world Fixture.deployment "") "/work/manifests").
  reflexivity.
Defined.

Lemma walk_entries_app {St : Type} (walkFn : St -> string -> walkarg -> St * walkerr)
    (path : string) (xs ys : list Tree) (s : St) :
  walk_entries walkFn path (xs ++ ys) s =
    let (s', err) := walk_entries walkFn path xs s in
    match err with
    | WalkNil => walk_entries walkFn path ys s'
    | _ => (s', err)
    end.
Proof.
  revert s; induction xs as [|e xs IH]; intros s; [reflexivity|].
  rewrite <- app_comm_cons, !walk_entries_cons.
  destruct (walk walkFn (filepath_Join path (Tree_name e)) e s) as [s' err].
  destruct err, e; auto.
Qed.

Lemma walk_entries_readable (path : string) (entries : list Tree) (files : list string) :
  forallb readable entries = true ->
  walk_entries getYamlFiles_walkFn path entries files =
    (files ++ flat_map (fun e => yaml_files (filepath_Join path (Tree_name e)) e) entries,
     WalkNil).
Proof.
  intros Hr.
  assert (H : readable (Dir "" entries) = true) by exact Hr.
  apply (walk_readable _ path files) in H.
  rewrite walk_Dir in H. exact H.
Qed.

Lemma without_git_Dir (name : string) (entries : list Tree) :
  without_git (Dir name entries) = Dir name (without_git_entries entries).
Proof. reflexivity. Qed.

Lemma Tree_name_without_git (t : Tree) : Tree_name (without_git t) = Tree_name t.
Proof. now destruct t. Qed.

(** The walk does not see the listable [.git] directories: it goes the
    same way, with the same result, on the tree without them. *)
Lemma walk_without_git (t : Tree) :
  forall path files,
    walk getYamlFiles_walkFn path (without_git t) files =
    walk getYamlFiles_walkFn path t files.
Proof.
  induction t as [name|name entries IH|name err|name err] using Tree_nested_ind;
    intros path files; try reflexivity.
  rewrite without_git_Dir, !walk_Dir.
  destruct (getYamlFiles_walkFn files path _) as [s1 err1].
  destruct err1; try reflexivity.
  revert s1. induction IH as [|e entries He _ IHentries]; intros s1; [reflexivity|].
  change (without_git_entries (e :: entries))
    with (if is_git_dir e then without_git_entries entries
          else without_git e :: without_git_entries entries).
  destruct (is_git_dir e) eqn:Egit.
  - destruct e as [n|n es|n e0|n e0]; try discriminate.
    simpl in Egit. rewrite walk_entries_cons, walk_Dir. simpl.
    rewrite Egit. apply IHentries.
  - rewrite !walk_entries_cons, Tree_name_without_git, He.
    destruct (walk getYamlFiles_walkFn _ e s1) as [s' err].
    destruct err, e; simpl; auto.
Qed.

(** X3: every directory named [.git] that can be listed, at any depth and
    whatever it holds, adds nothing to the files found and cannot fail the
    walk: [getYamlFiles] returns what it returns on the tree without these
    directories.  A directory named [.git] that cannot be listed is not
    skipped: it fails the walk like every unreadable directory, because
    the callback looks at the error before it looks at the name. *)
Theorem getYamlFiles_skips_git (w w' : World) (path : string) :
  (Lstat w' path = without_git (Lstat w path) ->
   getYamlFiles w path = getYamlFiles w' path) /\
  (forall name before after err,
      Lstat w path = Dir name (before ++ UnreadableDir ".git" err :: after) ->
      name <> ".git" ->
      forallb readable before = true ->
      getYamlFiles w path = Err (Errorf "walk path" err)).
Proof.
  split.
  - intros H. unfold getYamlFiles, Walk. now rewrite H, walk_without_git.
  - intros name before after err H Hname Hr.
    unfold getYamlFiles, Walk. rewrite H, walk_Dir. simpl.
    apply String.eqb_neq in Hname. rewrite Hname.
    now rewrite walk_entries_app, (walk_entries_readable _ _ _ Hr), walk_entries_cons.
Qed.

Lemma getYamlFiles_skips_git_witness :
  let tree :=
    Dir "manifests"
      [ Dir ".git" [File "hook.yaml"; NoStat "index.lock" "permission denied"];
        Dir "base" [File "app.yaml"; Dir ".git" [UnreadableDir "objects" "permission denied"]];
        File "README.md" ] in
  let world_with found :=
    {| GOOS := "linux";
       Getwd := Ok "/work";
       Lstat := fun _ => found;
       ReadFile := fun _ => Err "unused";
       Create := fun _ => None;
       flag_output := "" |} in
  getYamlFiles (world_with tree) "/work/manifests" =
    Ok ["/work/manifests/base/app.yaml"] /\
  getYamlFiles
    (world_with (Dir "manifests" [File "a.yaml"; UnreadableDir ".git" "permission denied"]))
    "/work/manifests" = Err "walk path: permission denied".
Proof.
  cbv zeta. split.
  - exact (proj1 (getYamlFiles_skips_git
                    {| GOOS := "linux";
                       Getwd := Ok "/work";
                       Lstat := fun _ =>
                         Dir "manifests"
                           [ Dir ".git"
                               [File "hook.yaml"; NoStat "index.lock" "permission denied"];
                             Dir "base"
                               [File "app.yaml";
                                Dir ".git" [UnreadableDir "objects" "permission denied"]];
                             File "README.md" ];
                       ReadFile := fun _ => Err "unused";
                       Create := fun _ => None;
                       flag_output := "" |}
                    {| GOOS := "linux";
                       Getwd := Ok "/work";
                       Lstat := fun _ =>
                         Dir "manifests" [Dir "base" [File "app.yaml"]; File "README.md"];
                       ReadFile := fun _ => Err "unused";
                       Create := fun _ => None;
                       flag_output := "" |}
                    "/work/manifests") eq_refl).
  - exact (proj2 (getYamlFiles_skips_git
                    {| GOOS := "linux";
                       Getwd := Ok "/work";
                       Lstat := fun _ =>
                         Dir "manifests"
                           [File "a.yaml"; UnreadableDir ".git" "permission denied"];
                       ReadFile := fun _ => Err "unused";
                       Create := fun _ => None;
                       flag_output := "" |}
                    {| GOOS := "linux";
                       Getwd := Ok "/work";
                       Lstat := fun _ => File "unused";
                       ReadFile := fun _ => Err "unused";
                       Create := fun _ => None;
                       flag_output := "" |}
                    "/work/manifests")
             "manifests" [File "a.yaml"] [] "permission denied"
             eq_refl ltac:(discriminate) eq_refl).
Defined.

(** X4: when the root cannot be examined or listed, or when an entry of the
    root directory cannot (the entries before it being readable),
    [getYamlFiles] returns the error wrapped as [walk path: ...] and none
    of the files found. *)
Theorem getYamlFiles_walk_error (w : World) (path : string) (bad : Tree) (err : error) :
  (bad = NoStat (Tree_name bad) err \/ bad = UnreadableDir (Tree_name bad) err) ->
  (Lstat w path = bad ->
   getYamlFiles w path = Err (Errorf "walk path" err)) /\
  (forall name before after,
      Lstat w path = Dir name (before ++ bad :: after) ->
      name <> ".git" ->
      forallb readable before = true ->
      getYamlFiles w path = Err (Errorf "walk path" err)).
Proof.
  intros Hbad. split.
  - intros H. unfold getYamlFiles, Walk. rewrite H.
    destruct Hbad as [-> | ->]; reflexivity.
  - intros name before after H Hname Hr.
    unfold getYamlFiles, Walk. rewrite H, walk_Dir. simpl.
    apply String.eqb_neq in Hname. rewrite Hname.
    rewrite walk_entries_app, (walk_entries_readable _ _ _ Hr), walk_entries_cons.
    destruct Hbad as [-> | ->]; reflexivity.
Qed.

Lemma getYamlFiles_walk_error_witness :
  getYamlFiles (Fixture.world Fixture.deployment "") "/work/missing" =
    Err "walk path: no such file or directory".
Proof.
  apply (proj1 (getYamlFiles_walk_error (Fixture.world Fixture.deployment "")
                  "/work/missing" (NoStat "/work/missing" "no such file or directory")
                  "no such file or directory" (or_introl eq_refl))).
  reflexivity.
Defined.

(* ================================================================== *)
(** * Reading and splitting the files                                   *)
(* ================================================================== *)

Lemma fold_left_append {A : Type} (xs acc : list A) :
  fold_left (fun acc x => acc ++ [x]) xs acc = acc ++ xs.
Proof.
  revert acc; induction xs as [|x xs IH]; intros acc; simpl.
  - now rewrite app_nil_r.
  - now rewrite IH, <- app_assoc.
Qed.

Lemma splitYamlFiles_emit (w : World) (files : list string) :
  splitYamlFiles w files =
    emit_all (fun file =>
                fileContent <- wrap "open file" (ReadFile w file);;
                Ok (doSplit (GOOS w) fileContent)) files.
Proof.
  unfold splitYamlFiles.
  rewrite for_range_ext with
    (body' := fun acc file =>
                ys <- (fileContent <- wrap "open file" (ReadFile w file);;
                       Ok (doSplit (GOOS w) fileContent));;
                Ok (acc ++ ys)).
  - rewrite for_range_emit. now destruct (emit_all _ files).
  - intros acc file. destruct (ReadFile w file); simpl; auto.
    now rewrite fold_left_append.
Qed.

Lemma splitYamlFiles_all_read_aux (w : World) (files contents : list string) :
  Forall2 (fun file content => ReadFile w file = Ok content) files contents ->
  splitYamlFiles w files = Ok (flat_map (doSplit (GOOS w)) contents) /\
  List.length files <= List.length (flat_map (doSplit (GOOS w)) contents).
Proof.
  intros H. rewrite splitYamlFiles_emit.
  induction H as [|file content files contents Hread _ [IH Hlen]]; simpl; [auto|].
  rewrite Hread, IH; simpl. split; [reflexivity|].
  rewrite length_app.
  assert (1 <= List.length (doSplit (GOOS w) content)).
  { unfold doSplit.
    rewrite Split_step
      by (destruct (Contains content CRLF && (GOOS w =? "windows")%string); discriminate).
    destruct (Index content _); simpl; lia. }
  lia.
Qed.

(** X5: when every file can be read, [splitYamlFiles] returns the
    documents of the files, file after file in the order given, and at
    least one document for each file. *)
Theorem splitYamlFiles_all_read (w : World) (files contents : list string) :
  Forall2 (fun file content => ReadFile w file = Ok content) files contents ->
  splitYamlFiles w files = Ok (flat_map (doSplit (GOOS w)) contents) /\
  List.length files <= List.length (flat_map (doSplit (GOOS w)) contents).
Proof. exact (splitYamlFiles_all_read_aux w files contents). Qed.

Lemma splitYamlFiles_all_read_witness :
  splitYamlFiles (Fixture.world ("a" +++ LF +++ "---" +++ LF +++ "b") "")
    ["/work/manifests/app.yaml"; "/work/manifests/app.yaml"] =
    Ok ["a"; "b"; "a"; "b"].
Proof.
  apply (splitYamlFiles_all_read
           (Fixture.world ("a" +++ LF +++ "---" +++ LF +++ "b") "")
           ["/work/manifests/app.yaml"; "/work/manifests/app.yaml"]
           ["a" +++ LF +++ "---" +++ LF +++ "b"; "a" +++ LF +++ "---" +++ LF +++ "b"]).
  repeat constructor.
Defined.

(** X6: the first file that cannot be read makes [splitYamlFiles] return
    the read error wrapped as [open file: ...]; the documents of the files
    read before it are dropped and the files after it are not read. *)
Theorem splitYamlFiles_read_error (w : World) (before after contents : list string)
    (file : string) (e : error) :
  Forall2 (fun file content => ReadFile w file = Ok content) before contents ->
  ReadFile w file = Err e ->
  splitYamlFiles w (before ++ file :: after) = Err (Errorf "open file" e).
Proof.
  intros Hbefore Hfile.
  pose proof (proj1 (splitYamlFiles_all_read_aux w before contents Hbefore)) as H.
  rewrite splitYamlFiles_emit in *.
  rewrite emit_all_app, H; simpl. now rewrite Hfile.
Qed.

Lemma splitYamlFiles_read_error_witness :
  splitYamlFiles (Fixture.world "a" "")
    ["/work/manifests/app.yaml"; "/work/manifests/gone.yaml"; "/work/manifests/app.yaml"] =
    Err "open file: no such file or directory".
Proof.
  apply (splitYamlFiles_read_error (Fixture.world "a" "")
           ["/work/manifests/app.yaml"] ["/work/manifests/app.yaml"] ["a"]
           "/work/manifests/gone.yaml" "no such file or directory").
  - repeat constructor.
  - reflexivity.
Defined.

Lemma HasPrefix_slice_to (n : nat) (s p : string) :
  HasPrefix (slice_to n s) p = true -> HasPrefix s p = true.
Proof.
  revert n s; induction p as [|c p IH]; intros n s; [now destruct s|].
  destruct n as [|n], s as [|x s]; simpl; try discriminate.
  intros H; apply andb_prop in H as [-> H]; simpl; eauto.
Qed.

(** The text before the first instance of a separator holds no instance. *)
Lemma Index_slice_to (s sep : string) (m : nat) :
  sep <> "" -> Index s sep = Some m -> Index (slice_to m s) sep = None.
Proof.
  intros Hsep. revert m; induction s as [|x s IH]; intros m; rewrite Index_eq.
  - destruct (HasPrefix "" sep) eqn:E; [|discriminate].
    destruct sep; [congruence|discriminate].
  - destruct (HasPrefix (String x s) sep) eqn:E.
    + intros [= <-]. simpl slice_to. destruct sep; [congruence|reflexivity].
    + destruct (Index s sep) as [k|] eqn:Ek; [|discriminate].
      intros [= <-]. simpl slice_to. rewrite Index_eq.
      destruct (HasPrefix (String x (slice_to k s)) sep) eqn:E'.
      * apply (HasPrefix_slice_to (S k) (String x s)) in E'. congruence.
      * now rewrite (IH k eq_refl).
Qed.

Lemma Split_pieces (sep : string) :
  sep <> "" ->
  forall s, Forall (fun piece => Contains piece sep = false) (Split s sep).
Proof.
  intros Hsep s.
  remember (String.length s) as n eqn:En.
  revert s En; induction n as [n IH] using lt_wf_ind; intros s ->.
  rewrite Split_step by assumption.
  destruct (Index s sep) as [m|] eqn:E.
  - constructor.
    + unfold Contains. now rewrite (Index_slice_to _ _ _ Hsep E).
    + pose proof (Index_Some_length _ _ _ E).
      assert (0 < String.length sep) by (destruct sep; [congruence|simpl; lia]).
      eapply IH; [|reflexivity]. rewrite length_slice_from. lia.
  - constructor; [|constructor]. unfold Contains. now rewrite E.
Qed.

(** X7: no document [doSplit] returns holds the separator it splits on, and
    a content without the separator is one document, the content itself. *)
Theorem doSplit_documents (goos data : string) :
  let sep :=
    if (goos =? "windows")%string && Contains data CRLF
    then CRLF +++ "---" +++ CRLF
    else LF +++ "---" +++ LF in
  Forall (fun doc => Contains doc sep = false) (doSplit goos data) /\
  (Contains data sep = false -> doSplit goos data = [data]).
Proof.
  assert (H : doSplit goos data =
              Split data (if (goos =? "windows")%string && Contains data CRLF
                          then CRLF +++ "---" +++ CRLF
                          else LF +++ "---" +++ LF)).
  { unfold doSplit. rewrite andb_comm.
    now destruct ((goos =? "windows")%string && Contains data CRLF). }
  cbv zeta. rewrite H.
  assert (Hsep : (if (goos =? "windows")%string && Contains data CRLF
                  then CRLF +++ "---" +++ CRLF
                  else LF +++ "---" +++ LF) <> "").
  { destruct ((goos =? "windows")%string && Contains data CRLF); discriminate. }
  split; [now apply Split_pieces|].
  intros Hno. rewrite Split_step by assumption.
  unfold Contains in Hno. now destruct (Index data _).
Qed.

Lemma doSplit_documents_witness :
  doSplit "linux" "kind: Pod" = ["kind: Pod"].
Proof.
  apply (proj2 (doSplit_documents "linux" "kind: Pod")). reflexivity.
Defined.

(* ================================================================== *)
(** * More on the image string parser                                   *)
(* ================================================================== *)

Lemma count_char_append (c : ascii) (s t : string) :
  count_char c (s +++ t) = count_char c s + count_char c t.
Proof. induction s as [|x s IH]; simpl; [reflexivity|]. rewrite IH; lia. Qed.

Lemma cut_first_before_first (c : ascii) (s : string) :
  cut_first c (before_first c s) = None.
Proof.
  unfold before_first. destruct (cut_first c s) as [[a b]|] eqn:E; [|exact E].
  now apply cut_first_Some in E.
Qed.

Lemma cut_last_after (c : ascii) (s a b : string) :
  cut_last c s = Some (a, b) -> cut_first c b = None.
Proof.
  revert a; induction s as [|x s IH]; intros a; simpl; [discriminate|].
  destruct (cut_last c s) as [[a' b']|] eqn:E.
  - intros [= <- <-]. eauto.
  - destruct (Ascii.eqb x c); [|discriminate].
    intros [= <- <-]. now apply cut_last_None.
Qed.

Lemma after_last_no_char (c : ascii) (s : string) :
  cut_first c (after_last c s) = None.
Proof.
  unfold after_last. destruct (cut_last c s) as [[a b]|] eqn:E.
  - eapply cut_last_after; eauto.
  - now apply cut_last_None.
Qed.

Lemma TrimPrefix_self_slash (h : string) : TrimPrefix h (h +++ "/") = h.
Proof.
  unfold TrimPrefix. rewrite HasPrefix_longer; [reflexivity|].
  rewrite length_append; simpl; lia.
Qed.

(** The image built from a path: its host is empty or the first segment of
    the path, and then the path is the host alone or the host, a [/] and
    the repository. *)
Lemma image_of_cases (path version : string) :
  (path_host path = "" /\ Repository (image_of path version) = path) \/
  (Contains (path_host path) ".io" = true /\
   cut_first "/" (path_host path) = None /\
   ((path = path_host path /\ Repository (image_of path version) = path) \/
    path = path_host path +++ "/" +++ Repository (image_of path version))).
Proof.
  unfold image_of; simpl. unfold path_host.
  destruct (Contains (before_first "/" path) ".io") eqn:Hio; [|left; auto].
  right. split; [exact Hio|]. split; [apply cut_first_before_first|].
  pose proof (Contains_io_nonempty _ Hio) as Hne.
  apply String.eqb_neq in Hne. rewrite Hne; simpl.
  unfold before_first in *.
  destruct (cut_first "/" path) as [[h r]|] eqn:E.
  - right. apply cut_first_Some in E as [-> _].
    change (h +++ String "/" r) with (h +++ "/" +++ r).
    rewrite <- (append_assoc h "/" r), TrimPrefix_append.
    now rewrite append_assoc.
  - left. split; [reflexivity|]. apply TrimPrefix_self_slash.
Qed.

Lemma marshalImage_Ok (image : string) (d : DockerImage) :
  marshalImage image = Ok d ->
  exists path rest,
    cut_first ":" image = Some (path, rest) /\
    cut_first ":" path = None /\
    d = image_of path (before_first ":" rest).
Proof.
  rewrite marshalImage_eq.
  destruct (cut_first ":" image) as [[path rest]|] eqn:E; [|discriminate].
  intros [= <-]. exists path, rest. repeat split.
  now apply cut_first_Some in E.
Qed.

Lemma marshalImage_path_version (path version : string) :
  cut_first ":" path = None -> cut_first ":" version = None ->
  marshalImage (path +++ ":" +++ version) = Ok (image_of path version).
Proof.
  intros Hp Hv. rewrite marshalImage_eq.
  change (path +++ ":" +++ version) with (path +++ String ":" version).
  rewrite (cut_first_append _ _ _ Hp). now rewrite (before_first_None _ _ Hv).
Qed.

Lemma TrimPrefix_host (h r : string) : TrimPrefix (h +++ String "/" r) (h +++ "/") = r.
Proof.
  change (h +++ String "/" r) with (h +++ "/" +++ r).
  now rewrite <- (append_assoc h "/" r), TrimPrefix_append.
Qed.

Lemma image_of_host_host (h version : string) :
  Contains h ".io" = true -> cut_first "/" h = None ->
  image_of (h +++ String "/" h) version = image_of h version.
Proof.
  intros Hio Hslash.
  assert (Hh : path_host h = h).
  { unfold path_host. now rewrite (before_first_None _ _ Hslash), Hio. }
  assert (Hhh : path_host (h +++ String "/" h) = h).
  { unfold path_host, before_first.
    now rewrite (cut_first_append _ _ _ Hslash), Hio. }
  pose proof (Contains_io_nonempty _ Hio) as Hne. apply String.eqb_neq in Hne.
  assert (Hname : after_last "/" (h +++ String "/" h) = after_last "/" h).
  { rewrite (after_last_cut_first "/" (h +++ String "/" h)).
    now rewrite (cut_first_append _ _ _ Hslash). }
  unfold image_of. rewrite Hh, Hhh, Hne, Hname; cbn [negb].
  now rewrite TrimPrefix_self_slash, TrimPrefix_host.
Qed.

(** X8: formatting a parsed image and parsing the result gives the parsed
    image back: the parser is the identity on what the formatter prints
    for its results. *)
Theorem marshalImage_String_marshalImage (image : string) (d : DockerImage) :
  marshalImage image = Ok d ->
  marshalImage (DockerImage_String d) = Ok d.
Proof.
  intros H. apply marshalImage_Ok in H as (path & rest & _ & Hpath & ->).
  set (version := before_first ":" rest).
  assert (Hv : cut_first ":" version = None) by apply cut_first_before_first.
  destruct (image_of_cases path version) as [[Hh Hr] | (Hio & Hslash & [[Hp Hr] | Hp])].
  - rewrite String_image_of_no_host by assumption.
    now apply marshalImage_path_version.
  - (* the path is a host alone: the formatter prints it twice *)
    assert (Hfmt : DockerImage_String (image_of path version) =
                   (path +++ "/" +++ path) +++ ":" +++ version).
    { unfold DockerImage_String.
      change (Host (image_of path version)) with (path_host path).
      rewrite Hr, <- Hp.
      pose proof (Contains_io_nonempty _ Hio) as Hne. rewrite <- Hp in Hne.
      apply String.eqb_neq in Hne. rewrite Hne; simpl.
      now rewrite !append_assoc. }
    rewrite Hfmt, marshalImage_path_version; auto.
    + f_equal. rewrite <- Hp in Hio, Hslash.
      exact (image_of_host_host path version Hio Hslash).
    + apply cut_first_None_count. rewrite !count_char_append.
      apply cut_first_None_count in Hpath. simpl. lia.
  - rewrite String_image_of.
    + now apply marshalImage_path_version.
    + rewrite Hp, (Contains_char "/").
      change (path_host path +++ "/" +++ Repository (image_of path version))
        with (path_host path +++ String "/" (Repository (image_of path version))).
      now rewrite (cut_first_append _ _ _ Hslash).
Qed.

Lemma marshalImage_String_marshalImage_witness :
  let d := {| Host := "gcr.io"; Name := "gcr.io"; Repository := "gcr.io";
              Version := "5000/app/web" |} in
  marshalImage (DockerImage_String d) = Ok d.
Proof.
  apply (marshalImage_String_marshalImage "gcr.io:5000/app/web:1.0").
  reflexivity.
Defined.

(** X9: what the parser keeps in its result: the host is empty or holds
    [.io] and no [/]; the name is the last [/]-segment of the repository and
    holds no [/]; the version holds no [:]; host and repository hold no
    [:]. *)
Theorem marshalImage_invariants (image : string) (d : DockerImage) :
  marshalImage image = Ok d ->
  (Host d = "" \/ (Contains (Host d) ".io" = true /\ Contains (Host d) "/" = false)) /\
  Name d = after_last "/" (Repository d) /\
  Contains (Name d) "/" = false /\
  Contains (Version d) ":" = false /\
  Contains (Host d) ":" = false /\
  Contains (Repository d) ":" = false.
Proof.
  intros H. apply marshalImage_Ok in H as (path & rest & _ & Hpath & ->).
  set (version := before_first ":" rest).
  assert (Hcount : forall a b, path = a +++ b -> count_char ":" a = 0 /\ count_char ":" b = 0).
  { intros a b Hab. apply cut_first_None_count in Hpath.
    rewrite Hab, count_char_append in Hpath. lia. }
  assert (Hno : forall s, count_char ":" s = 0 -> Contains s ":" = false).
  { intros s Hs. rewrite (Contains_char ":").
    apply cut_first_None_count in Hs. now rewrite Hs. }
  assert (Hname : Contains (after_last "/" path) "/" = false).
  { rewrite (Contains_char "/"). now rewrite after_last_no_char. }
  assert (Hversion : Contains version ":" = false).
  { rewrite (Contains_char ":"). unfold version. now rewrite cut_first_before_first. }
  destruct (image_of_cases path version) as [[Hh Hr] | (Hio & Hslash & [[Hp Hr] | Hp])].
  - change (Host (image_of path version)) with (path_host path).
    change (Name (image_of path version)) with (after_last "/" path).
    change (Version (image_of path version)) with version.
    rewrite Hh, Hr. repeat split; auto.
    apply Hno. now apply cut_first_None_count.
  - change (Host (image_of path version)) with (path_host path).
    change (Name (image_of path version)) with (after_last "/" path).
    change (Version (image_of path version)) with version.
    rewrite Hr, <- Hp.
    assert (Hp0 : Contains path ":" = false)
      by (apply Hno; now apply cut_first_None_count).
    repeat split; auto.
    right. rewrite <- Hp in Hio, Hslash. split; [exact Hio|].
    rewrite (Contains_char "/"). now rewrite Hslash.
  - change (Host (image_of path version)) with (path_host path).
    change (Name (image_of path version)) with (after_last "/" path).
    change (Version (image_of path version)) with version.
    destruct (Hcount _ _ Hp) as [Hc1 Hc2].
    rewrite count_char_append in Hc2. simpl in Hc2.
    repeat split; auto.
    + right. split; [exact Hio|]. rewrite (Contains_char "/"). now rewrite Hslash.
    + rewrite Hp at 1. rewrite (after_last_cut_first "/").
      change (path_host path +++ "/" +++ Repository (image_of path version))
        with (path_host path +++ String "/" (Repository (image_of path version))).
      now rewrite (cut_first_append _ _ _ Hslash).
Qed.

Lemma marshalImage_invariants_witness :
  let d := image_of "gcr.io/proj/proxy" "1.0" in
  (Host d = "" \/ (Contains (Host d) ".io" = true /\ Contains (Host d) "/" = false)) /\
  Name d = after_last "/" (Repository d) /\
  Contains (Name d) "/" = false /\
  Contains (Version d) ":" = false /\
  Contains (Host d) ":" = false /\
  Contains (Repository d) ":" = false.
Proof.
  apply (marshalImage_invariants "gcr.io/proj/proxy:1.0"). reflexivity.
Defined.

Lemma marshalImage_not_Err (image : string) (e : error) : marshalImage image <> Err e.
Proof.
  rewrite marshalImage_eq. destruct (cut_first ":" image) as [[? ?]|]; discriminate.
Qed.

Lemma marshalImage_Ok_colon (image : string) :
  (exists d, marshalImage image = Ok d) <-> Contains image ":" = true.
Proof.
  rewrite marshalImage_eq, (Contains_char ":").
  destruct (cut_first ":" image) as [[? ?]|]; split; eauto; try discriminate.
  intros [d H]; discriminate.
Qed.

(** X10: [marshalImages] parses the strings one by one and in order: it
    returns a list exactly when every string parses, which is when every
    string holds a [:]; the list then has one parsed image per string. *)
Theorem marshalImages_Ok_iff (images : list string) (parsed : list DockerImage) :
  (marshalImages images = Ok parsed <->
   Forall2 (fun image d => marshalImage image = Ok d) images parsed) /\
  ((exists ds, marshalImages images = Ok ds) <->
   Forall (fun image => Contains image ":" = true) images).
Proof.
  rewrite marshalImages_emit.
  assert (H1 : forall images parsed,
             emit_all (fun image => d <- marshalImage image;; Ok [d]) images = Ok parsed <->
             Forall2 (fun image d => marshalImage image = Ok d) images parsed).
  { clear. induction images as [|image images IH]; intros parsed; simpl.
    - split.
      + intros [= <-]; constructor.
      + intros H; inversion H; reflexivity.
    - destruct (marshalImage image) as [d| |] eqn:E; simpl.
      + destruct (emit_all _ images) as [ds| |] eqn:Es; simpl; split.
        * intros [= <-]. constructor; [exact E|]. now apply IH.
        * intros H; inversion H as [|? d' ? ds' Hd Hds]; subst.
          apply IH in Hds. congruence.
        * discriminate.
        * intros H; inversion H as [|? d' ? ds' Hd Hds]; subst.
          apply IH in Hds. discriminate.
        * discriminate.
        * intros H; inversion H as [|? d' ? ds' Hd Hds]; subst.
          apply IH in Hds. discriminate.
      + split; [discriminate|]. intros H; inversion H; congruence.
      + split; [discriminate|]. intros H; inversion H; congruence. }
  split; [apply H1|].
  split.
  - intros [ds Hds]. apply H1 in Hds.
    induction Hds as [|image d images' ds' Hd _ IH]; constructor; auto.
    apply marshalImage_Ok_colon; eauto.
  - intros Hall.
    assert (exists ds, Forall2 (fun image d => marshalImage image = Ok d) images ds)
      as [ds Hds].
    { induction Hall as [|image images' Hc _ [ds IH]]; [exists []; constructor|].
      apply marshalImage_Ok_colon in Hc as [d Hd].
      exists (d :: ds); now constructor. }
    exists ds. now apply H1.
Qed.

(* ================================================================== *)
(** * More on deduplication                                             *)
(* ================================================================== *)

Section DedupeMore.
Variable same : string -> string -> bool.

Let step (dedupedImageList : list string) (image : string) : list string :=
  if negb (contains same dedupedImageList image)
  then dedupedImageList ++ [image]
  else dedupedImageList.

Lemma ForallOrdPairs_snoc {A : Type} (R : A -> A -> Prop) (l : list A) (x : A) :
  ForallOrdPairs R l -> Forall (fun a => R a x) l -> ForallOrdPairs R (l ++ [x]).
Proof.
  induction 1 as [|a l Ha Hl IH]; intros Hx; simpl.
  - constructor; constructor.
  - inversion Hx; subst. constructor; auto.
    apply Forall_app; split; auto.
Qed.

Lemma contains_false (images : list string) (image : string) :
  contains same images image = false ->
  Forall (fun earlier => same earlier image = false) images.
Proof.
  induction images as [|x xs IH]; simpl; [constructor|].
  destruct (same x image) eqn:E; [discriminate|]. auto.
Qed.

Lemma contains_app (xs ys : list string) (image : string) :
  contains same (xs ++ ys) image = contains same xs image || contains same ys image.
Proof.
  induction xs as [|x xs IH]; simpl; [reflexivity|].
  now destruct (same x image).
Qed.

(** X11: whatever the comparison, [dedupeImages] keeps only images of its
    input and never keeps two images of which the earlier compares equal
    to the later. *)
Theorem dedupeImages_no_duplicates (images : list string) :
  incl (dedupeImages same images) images /\
  ForallOrdPairs (fun earlier later => same earlier later = false)
    (dedupeImages same images).
Proof.
  unfold dedupeImages. fold step.
  assert (H : forall images acc,
             incl (fold_left step images acc) (acc ++ images) /\
             (ForallOrdPairs (fun earlier later => same earlier later = false) acc ->
              ForallOrdPairs (fun earlier later => same earlier later = false)
                (fold_left step images acc))).
  { clear images. induction images as [|x xs IH]; intros acc; simpl.
    - rewrite app_nil_r. split; [apply incl_refl|auto].
    - destruct (IH (step acc x)) as [Hincl Hpairs]. split.
      + intros y Hy. apply Hincl in Hy. apply in_app_or in Hy as [Hy|Hy].
        * unfold step in Hy. destruct (negb (contains same acc x)).
          -- apply in_app_or in Hy as [Hy|[<-|[]]];
               apply in_or_app; simpl; auto.
          -- apply in_or_app; auto.
        * apply in_or_app; simpl; auto.
      + intros Hacc. apply Hpairs. unfold step.
        destruct (contains same acc x) eqn:E; simpl; [exact Hacc|].
        apply ForallOrdPairs_snoc; [exact Hacc|]. now apply contains_false. }
  destruct (H images []) as [Hincl Hpairs]. split; [exact Hincl|].
  apply Hpairs. constructor.
Qed.

(** X12: when the comparison is reflexive, [dedupeImages] loses no image:
    every image of the input compares equal to an image that is kept. *)
Theorem dedupeImages_covers (images : list string) :
  (forall image, same image image = true) ->
  forall image, In image images ->
    contains same (dedupeImages same images) image = true.
Proof.
  intros Hrefl. unfold dedupeImages. fold step.
  assert (Hmono : forall images acc image,
             contains same acc image = true ->
             contains same (fold_left step images acc) image = true).
  { clear images. induction images as [|x xs IH]; intros acc image Hc; simpl; auto.
    apply IH. unfold step. destruct (negb (contains same acc x)); auto.
    rewrite contains_app, Hc. reflexivity. }
  assert (H : forall images acc image,
             In image images ->
             contains same (fold_left step images acc) image = true).
  { clear images. induction images as [|x xs IH]; intros acc image Hin; simpl.
    - destruct Hin.
    - destruct Hin as [<-|Hin]; [|now apply IH].
      apply Hmono. unfold step.
      destruct (contains same acc x) eqn:E; simpl; [exact E|].
      rewrite contains_app. simpl. rewrite Hrefl. apply orb_true_r. }
  intros image Hin. now apply H.
Qed.

End DedupeMore.

Lemma EqualFold_refl (s : string) : Fixture.EqualFold s s = true.
Proof.
  induction s as [|c s IH]; simpl; [reflexivity|].
  rewrite IH, andb_true_r. unfold Fixture.equal_fold_byte.
  rewrite Nat.ltb_irrefl, Nat.eqb_refl. reflexivity.
Qed.

Lemma dedupeImages_covers_witness :
  contains Fixture.EqualFold
    (dedupeImages Fixture.EqualFold ["nginx:1.0"; "busybox:1.2"; "NGINX:1.0"])
    "NGINX:1.0" = true.
Proof.
  apply (dedupeImages_covers Fixture.EqualFold
           ["nginx:1.0"; "busybox:1.2"; "NGINX:1.0"] EqualFold_refl).
  simpl; auto.
Defined.

(* ================================================================== *)
(** * More on containers and documents                                  *)
(* ================================================================== *)

Lemma arg_images_Ok (arg : string) (images : list string) :
  arg_images arg = Ok images ->
  List.length images <= 1 /\ Forall (fun image => Contains image "=" = false) images.
Proof.
  unfold arg_images.
  destruct (negb (Contains arg ":") || Contains arg "=:").
  - intros [= <-]; simpl; auto.
  - rewrite (Split_char_index1 "=" arg).
    destruct (cut_first "=" arg) as [[key value]|]; simpl; [|discriminate].
    intros [= <-]; simpl. split; [lia|]. constructor; [|constructor].
    rewrite (Contains_char "="). now rewrite cut_first_before_first.
Qed.

(** X13: the images [getImagesFromContainerArgs] returns hold no [=], and
    there is at most one of them for each argument. *)
Theorem getImagesFromContainerArgs_images (args images : list string) :
  getImagesFromContainerArgs args = Ok images ->
  Forall (fun image => Contains image "=" = false) images /\
  List.length images <= List.length args.
Proof.
  rewrite getImagesFromContainerArgs_emit.
  revert images; induction args as [|arg args IH]; intros images; simpl.
  - intros [= <-]; simpl; auto.
  - destruct (arg_images arg) as [first| |] eqn:E; simpl; try discriminate.
    destruct (emit_all arg_images args) as [rest| |]; simpl; try discriminate.
    intros [= <-]. apply arg_images_Ok in E as [Hlen Hfirst].
    destruct (IH rest eq_refl) as [Hrest Hlenrest].
    split; [now apply Forall_app|]. rewrite length_app. lia.
Qed.

Lemma getImagesFromContainerArgs_images_witness :
  Forall (fun image => Contains image "=" = false) ["IMAGE"; "gcr.io/proj/proxy:1.0"] /\
  List.length ["IMAGE"; "gcr.io/proj/proxy:1.0"] <= 3.
Proof.
  apply (getImagesFromContainerArgs_images
           ["--env=IMAGE=nginx:1.0"; "--verbose"; "--proxy-image=gcr.io/proj/proxy:1.0"]).
  reflexivity.
Defined.

(** X14: [getImagesFromContainers] returns the image field of every
    container, empty or not, in the listed order; for containers without
    arguments it returns nothing else and cannot panic. *)
Theorem getImagesFromContainers_image_fields (containers : list Container) :
  (forall images, getImagesFromContainers containers = Ok images ->
     incl (map Image containers) images /\
     List.length containers <= List.length images) /\
  ((forall container, In container containers -> Args container = []) ->
   getImagesFromContainers containers = Ok (map Image containers)).
Proof.
  rewrite getImagesFromContainers_emit. split.
  - induction containers as [|c cs IH]; intros images; simpl.
    + intros [= <-]. split; [apply incl_refl|lia].
    + unfold container_images at 1.
      destruct (getImagesFromContainerArgs (Args c)) as [argImages| |]; simpl;
        try discriminate.
      destruct (emit_all container_images cs) as [rest| |]; simpl; try discriminate.
      intros [= <-]. destruct (IH rest eq_refl) as [Hincl Hlen]. split.
      * intros x [<-|Hx]; [now left|].
        right. apply in_or_app. right. now apply Hincl.
      * simpl. rewrite length_app. lia.
  - induction containers as [|c cs IH]; intros Hargs; simpl; [reflexivity|].
    unfold container_images at 1. rewrite (Hargs c (or_introl eq_refl)); simpl.
    rewrite IH; [reflexivity|]. intros c' Hc'. apply Hargs. now right.
Qed.

Lemma getImagesFromContainers_image_fields_witness :
  getImagesFromContainers
    [Fixture.nginx; {| Image := ""; Args := [] |}; Fixture.nginx] =
    Ok ["nginx:1.0"; ""; "nginx:1.0"].
Proof.
  apply (proj2 (getImagesFromContainers_image_fields
                  [Fixture.nginx; {| Image := ""; Args := [] |}; Fixture.nginx])).
  intros c [<-|[<-|[<-|[]]]]; reflexivity.
Defined.

Lemma marshalImage_joined (path version : string) :
  exists d, marshalImage (path +++ ":" +++ version) = Ok d.
Proof.
  apply marshalImage_Ok_colon. rewrite (Contains_char_count ":").
  rewrite count_char_append. simpl. apply Nat.ltb_lt. lia.
Qed.

(** X15: a [Prometheus] or [Alertmanager] document that parses adds exactly
    one image, [baseImage:version], whatever else the document holds; the
    parser accepts that image, also when the fields are empty. *)
Theorem operator_document_image (yaml : Yaml) (doc : string) (typeMeta : TypeMeta)
    (spec : promv1.Spec) (imageList : list string) :
  UnmarshalTypeMeta yaml doc = Ok typeMeta ->
  (Kind typeMeta = "Prometheus" /\ UnmarshalPrometheus yaml doc = Ok spec) \/
  (Kind typeMeta = "Alertmanager" /\ UnmarshalAlertmanager yaml doc = Ok spec) ->
  GetImagesInPath_document yaml imageList doc =
    Ok (imageList ++ [promv1.BaseImage spec +++ ":" +++ promv1.Version spec]) /\
  exists d, marshalImage (promv1.BaseImage spec +++ ":" +++ promv1.Version spec) = Ok d.
Proof.
  intros Hmeta H. split; [|apply marshalImage_joined].
  unfold GetImagesInPath_document. rewrite Hmeta.
  destruct H as [[-> ->] | [-> ->]]; reflexivity.
Qed.

Lemma operator_document_image_witness :
  GetImagesInPath_document Fixture.yaml ["nginx:1.0"] Fixture.prometheus =
    Ok ["nginx:1.0"; "quay.io/prometheus/prometheus:v2.0.0"].
Proof.
  apply (operator_document_image Fixture.yaml Fixture.prometheus
           {| Kind := "Prometheus" |}
           {| promv1.BaseImage := "quay.io/prometheus/prometheus";
              promv1.Version := "v2.0.0" |} ["nginx:1.0"]).
  - reflexivity.
  - left; split; reflexivity.
Defined.

(* ================================================================== *)
(** * More on whole runs                                                *)
(* ================================================================== *)

Lemma GetImagesInPath_with_output (EqualFold : string -> string -> bool) (yaml : Yaml)
    (w : World) (output path : string) :
  GetImagesInPath EqualFold yaml (with_output w output) path =
  GetImagesInPath EqualFold yaml w path.
Proof. reflexivity. Qed.

Lemma runListCommand_Ok (EqualFold : string -> string -> bool) (yaml : Yaml)
    (w : World) (path : string) (fx : Effects) :
  runListCommand EqualFold yaml w [path] = Ok fx ->
  exists workingDir images,
    Getwd w = Ok workingDir /\
    GetImagesInPath EqualFold yaml w (filepath_Join workingDir path) = Ok images /\
    fx = (if negb (flag_output w =? "")%string
          then snd (writeListToFile w images (filepath_Join workingDir (flag_output w)))
          else {| stdout := map DockerImage_String images; files_written := [] |}).
Proof.
  unfold runListCommand.
  destruct (Getwd w) as [workingDir| |] eqn:Hwd; simpl; try discriminate.
  destruct (GetImagesInPath EqualFold yaml w (filepath_Join workingDir path))
    as [images| |] eqn:Himages; simpl; try discriminate.
  intros H. exists workingDir, images.
  split; [reflexivity|]. split; [exact Himages|].
  revert H. destruct (negb (flag_output w =? "")%string).
  - destruct (writeListToFile w images _); simpl. now intros [= ->].
  - now intros [= ->].
Qed.

(** X16: with [--output] and a file that can be created, the command
    prints nothing and writes to that file, under the working directory,
    exactly the lines it prints without [--output]. *)
Theorem runListCommand_output_file (EqualFold : string -> string -> bool) (yaml : Yaml)
    (w : World) (path output workingDir : string) (fx : Effects) :
  runListCommand EqualFold yaml (with_output w "") [path] = Ok fx ->
  Getwd w = Ok workingDir ->
  output <> "" ->
  Create w (filepath_Join workingDir output) = None ->
  files_written fx = [] /\
  runListCommand EqualFold yaml (with_output w output) [path] =
    Ok {| stdout := [];
          files_written := [(filepath_Join workingDir output, stdout fx)] |}.
Proof.
  intros Hrun Hwd Houtput Hcreate.
  apply runListCommand_Ok in Hrun as (wd & images & Hwd' & Himages & ->).
  simpl in Hwd'. rewrite Hwd in Hwd'. injection Hwd' as <-.
  rewrite GetImagesInPath_with_output in Himages. simpl.
  split; [reflexivity|].
  unfold runListCommand. simpl Getwd. rewrite Hwd. simpl.
  rewrite GetImagesInPath_with_output, Himages. simpl.
  apply String.eqb_neq in Houtput. rewrite Houtput. simpl.
  unfold writeListToFile. simpl Create. now rewrite Hcreate.
Qed.

Lemma runListCommand_output_file_witness :
  let w :=
    {| GOOS := "linux";
       Getwd := Ok "/work";
       Lstat := Lstat (Fixture.world Fixture.deployment "");
       ReadFile := ReadFile (Fixture.world Fixture.deployment "");
       Create := fun _ => None;
       flag_output := "" |} in
  runListCommand Fixture.EqualFold Fixture.yaml (with_output w "images.txt") ["manifests"] =
    Ok {| stdout := [];
          files_written :=
            [("/work/images.txt",
              ["nginx:1.0"; "busybox:1.2"; "gcr.io/proj/proxy:1.0"])] |}.
Proof.
  cbv zeta.
  refine (proj2 (runListCommand_output_file Fixture.EqualFold Fixture.yaml _
                   "manifests" "images.txt" "/work"
                   {| stdout := ["nginx:1.0"; "busybox:1.2"; "gcr.io/proj/proxy:1.0"];
                      files_written := [] |} _ _ _ _)).
  - reflexivity.
  - reflexivity.
  - discriminate.
  - reflexivity.
Defined.





(** X18: on a readable tree without YAML files outside [.git], the command
    reads no file, succeeds and prints nothing. *)
Theorem run_without_yaml_files (EqualFold : string -> string -> bool) (yaml : Yaml)
    (w : World) (path workingDir : string) :
  Getwd w = Ok workingDir ->
  readable (Lstat w (filepath_Join workingDir path)) = true ->
  yaml_files (filepath_Join workingDir path) (Lstat w (filepath_Join workingDir path)) = [] ->
  flag_output w = "" ->
  NewListCommand_RunE EqualFold yaml w [path] = Ok no_effects /\
  exitCode (NewListCommand_RunE EqualFold yaml w [path]) = 0.
Proof.
  intros Hwd Hr Hnone Hflag.
  assert (Hfiles : getYamlFiles w (filepath_Join workingDir path) = Ok []).
  { unfold getYamlFiles, Walk. rewrite (walk_readable _ _ [] Hr), Hnone; simpl.
    destruct (Lstat w _) as [n|n es|n e|n e]; simpl; try reflexivity.
    destruct (n =? ".git")%string; reflexivity. }
  assert (Hrun : NewListCommand_RunE EqualFold yaml w [path] = Ok no_effects).
  { unfold NewListCommand_RunE, runListCommand, GetImagesInPath.
    rewrite Hwd; simpl. rewrite Hfiles; simpl. now rewrite Hflag. }
  now rewrite Hrun.
Qed.

Lemma run_without_yaml_files_witness :
  let w :=
    {| GOOS := "linux";
       Getwd := Ok "/work";
       Lstat := fun _ => Dir "docs" [Dir ".git" [File "hook.yaml"]; File "README.md"];
       ReadFile := fun _ => Err "permission denied";
       Create := fun _ => None;
       flag_output := "" |} in
  NewListCommand_RunE Fixture.EqualFold Fixture.yaml w ["docs"] = Ok no_effects /\
  exitCode (NewListCommand_RunE Fixture.EqualFold Fixture.yaml w ["docs"]) = 0.
Proof.
  cbv zeta.
  apply (run_without_yaml_files Fixture.EqualFold Fixture.yaml _ "docs" "/work");
    reflexivity.
Defined.

(** X19: when a YAML file of a readable tree cannot be read (the files
    before it can), the command fails with the read error wrapped along the
    call chain, prints nothing and exits non-zero. *)
Theorem run_unreadable_file (EqualFold : string -> string -> bool) (yaml : Yaml)
    (w : World) (path workingDir file : string) (before after contents : list string)
    (e : error) :
  Getwd w = Ok workingDir ->
  readable (Lstat w (filepath_Join workingDir path)) = true ->
  yaml_files (filepath_Join workingDir path) (Lstat w (filepath_Join workingDir path)) =
    before ++ file :: after ->
  Forall2 (fun file content => ReadFile w file = Ok content) before contents ->
  ReadFile w file = Err e ->
  NewListCommand_RunE EqualFold yaml w [path] =
    Err ("list: get images from path: split yaml files: open file: " +++ e) /\
  exitCode (NewListCommand_RunE EqualFold yaml w [path]) <> 0.
Proof.
  intros Hwd Hr Hfiles Hbefore Hfile.
  assert (Hget : getYamlFiles w (filepath_Join workingDir path) =
                 Ok (before ++ file :: after)).
  { unfold getYamlFiles, Walk. rewrite (walk_readable _ _ [] Hr), Hfiles; simpl.
    destruct (Lstat w _) as [n|n es|n e0|n e0]; simpl; try reflexivity.
    destruct (n =? ".git")%string; reflexivity. }
  assert (Hsplit : splitYamlFiles w (before ++ file :: after) = Err (Errorf "open file" e)).
  { pose proof (proj1 (splitYamlFiles_all_read_aux w before contents Hbefore)) as H.
    rewrite splitYamlFiles_emit in *.
    rewrite emit_all_app, H; simpl. now rewrite Hfile. }
  assert (Hrun : NewListCommand_RunE EqualFold yaml w [path] =
                 Err ("list: get images from path: split yaml files: open file: " +++ e)).
  { unfold NewListCommand_RunE, runListCommand, GetImagesInPath.
    rewrite Hwd; simpl. rewrite Hget; simpl. now rewrite Hsplit. }
  rewrite Hrun. split; [reflexivity|discriminate].
Qed.

Lemma run_unreadable_file_witness :
  let w :=
    {| GOOS := "linux";
       Getwd := Ok "/work";
       Lstat := fun _ => Dir "manifests" [File "a.yml"; File "b.yaml"];
       ReadFile := fun file =>
         if (file =? "/work/manifests/a.yml")%string then Ok Fixture.deployment
         else Err "permission denied";
       Create := fun _ => None;
       flag_output := "" |} in
  NewListCommand_RunE Fixture.EqualFold Fixture.yaml w ["manifests"] =
    Err "list: get images from path: split yaml files: open file: permission denied" /\
  exitCode (NewListCommand_RunE Fixture.EqualFold Fixture.yaml w ["manifests"]) <> 0.
Proof.
  cbv zeta.
  apply (run_unreadable_file Fixture.EqualFold Fixture.yaml _ "manifests" "/work"
           "/work/manifests/b.yaml" ["/work/manifests/a.yml"] [] [Fixture.deployment]
           "permission denied").
  - reflexivity.
  - reflexivity.
  - reflexivity.
  - repeat constructor.
  - reflexivity.
Defined.

Lemma GetImagesInPath_document_acc (yaml : Yaml) (imageList : list string) (doc : string) :
  GetImagesInPath_document yaml imageList doc =
    (images <- GetImagesInPath_document yaml [] doc;; Ok (imageList ++ images)).
Proof.
  unfold GetImagesInPath_document.
  destruct (UnmarshalTypeMeta yaml doc) as [typeMeta| |]; simpl;
    try (now rewrite ?app_nil_r).
  destruct (Kind typeMeta =? "Prometheus")%string.
  { destruct (UnmarshalPrometheus yaml doc); reflexivity. }
  destruct (Kind typeMeta =? "Alertmanager")%string.
  { destruct (UnmarshalAlertmanager yaml doc); reflexivity. }
  destruct (UnmarshalBaseType yaml doc) as [contents| |]; simpl;
    try (now rewrite ?app_nil_r).
  destruct (0 <? List.length (InitContainers contents))%nat;
    [destruct (getImagesFromContainers (InitContainers contents)); simpl; auto|];
    (destruct (0 <? List.length (Containers contents))%nat;
     [destruct (getImagesFromContainers (Containers contents)); simpl; auto|]);
    simpl; rewrite ?app_nil_r, ?app_assoc; reflexivity.
Qed.

(** X20: the images a document adds do not depend on the documents before
    it: the image list of a sequence of documents is the list of its first
    part followed by the list of its second part. *)
Theorem GetImagesInPath_loop_app (yaml : Yaml) (docs1 docs2 : list string) :
  GetImagesInPath_loop yaml (docs1 ++ docs2) [] =
    (images1 <- GetImagesInPath_loop yaml docs1 [];;
     images2 <- GetImagesInPath_loop yaml docs2 [];;
     Ok (images1 ++ images2)).
Proof.
  unfold GetImagesInPath_loop.
  assert (H : forall docs imageList,
             for_range docs (GetImagesInPath_document yaml) imageList =
             (images <- for_range docs (GetImagesInPath_document yaml) [];;
              Ok (imageList ++ images))).
  { induction docs as [|doc docs IH]; intros imageList; simpl.
    - now rewrite app_nil_r.
    - rewrite (GetImagesInPath_document_acc yaml imageList doc).
      destruct (GetImagesInPath_document yaml [] doc) as [images| |]; simpl; auto.
      rewrite IH, (IH images).
      destruct (for_range docs _ []); simpl; auto.
      now rewrite app_assoc. }
  rewrite for_range_app.
  destruct (for_range docs1 _ []) as [images1| |]; simpl; [apply H|reflexivity..].
Qed.
